(** * Inline projections over the Realtime Database: a shallow embedding

    The development follows the TypeScript sources

    - [src/projections/realtimeDBInlineProjection.ts]
      (retrying reader, dispatcher, projection applier),
    - [src/wireRealtimeDBProjections.ts] (append interceptor),
    - [src/testing/realtimeDBInlineProjectionSpec.ts] (test helpers),
    - [test/support/inMemoryRealtimeDb.ts] (the in-memory document store),
    - [test/fixtures/projections.ts] (the fixture projections).

    Asynchronous code is sequential here ([await] at every call), so a
    computation is a function from the state of the outside world to an
    outcome: a thrown value or a result, the world afterwards, and the
    trace of calls made on the database client.  Logging and tracing
    spans are left out: they do not influence control flow as long as the
    injected logger, if any, does not throw. *)

From Stdlib Require Import ZArith String Ascii DecimalString DecimalZ DecimalPos.
From stdpp Require Import gmap strings list fin_maps.

Local Open Scope Z_scope.

(** ** JavaScript values *)

(** The values that travel through the engine: what a snapshot's [val()]
    returns, what is handed to [set], what a promise is rejected with.
    Numbers are the integer-valued ones (counters, schema versions,
    stream versions); an object is a finite map from keys to values, which
    is also how the Realtime Database represents arrays.  A string is the
    sequence of the bytes of its UTF-8 encoding. *)
#[warnings="-register-all"]
Inductive JsValue : Type :=
  | JNull
  | JBool (b : bool)
  | JNum (n : Z)
  | JBigInt (n : Z)
  | JStr (s : string)
  | JObj (fields : gmap string JsValue).

(** A thrown (or rejected-with) value: an [Error] instance with its class
    name and message, or any other value. *)
Inductive Thrown : Type :=
  | ErrorObj (name message : string)
  | NonError (v : JsValue).

(** [if (v)], [!v], [a && b]: JavaScript truthiness. *)
Definition truthy (v : JsValue) : bool :=
  match v with
  | JNull => false
  | JBool b => b
  | JNum n => negb (n =? 0)
  | JBigInt n => negb (n =? 0)
  | JStr s => negb (String.eqb s "")
  | JObj _ => true
  end.

(** [a ?? b] on an optional property: [undefined] (absent) and [null] fall
    through to [b]. *)
Definition nullish (a b : option JsValue) : option JsValue :=
  match a with
  | None | Some JNull => b
  | Some _ => a
  end.

(** *** BigInt *)

(** [n.toString()] for a bigint [n]: the decimal numeral, ["-"] first for a
    negative one. *)
Definition bigintToString (n : Z) : string :=
  NilZero.string_of_int (Z.to_int n).

Definition utf8 (bytes : list nat) : string :=
  string_of_list_ascii (List.map ascii_of_nat bytes).

(** The characters [StringToBigInt] trims ([StrWhiteSpaceChar]): the
    white space TAB, VT, FF, SP, NBSP, U+1680, U+2000 to U+200A, U+202F,
    U+205F, U+3000 and U+FEFF, and the line terminators LF, CR, U+2028 and
    U+2029. *)
Definition strWhiteSpaceChars : list string :=
  List.map utf8
    ([[9]; [10]; [11]; [12]; [13]; [32]; [194; 160]; [225; 154; 128]]
     ++ List.map (fun low => [226; 128; low]) (seq 128 11)
     ++ [[226; 128; 168]; [226; 128; 169]; [226; 128; 175]; [226; 129; 159];
         [227; 128; 128]; [239; 187; 191]])%nat.

(** The number of bytes of the white-space character the string starts
    with, [0] when it starts with none. *)
Definition whiteSpaceLength (s : string) : nat :=
  match List.find (fun c => String.prefix c s) strWhiteSpaceChars with
  | Some c => String.length c
  | None => 0
  end.

(** [skip] is the number of bytes left of the white-space character being
    dropped. *)
Fixpoint trimStartFrom (skip : nat) (s : string) : string :=
  match s with
  | EmptyString => EmptyString
  | String c r =>
      match skip with
      | S n => trimStartFrom n r
      | O =>
          match whiteSpaceLength s with
          | S n => trimStartFrom n r
          | O => s
          end
      end
  end.

Definition trimStart (s : string) : string := trimStartFrom 0 s.

(** The longest suffix made of white space is dropped. *)
Fixpoint trimEnd (s : string) : string :=
  match s with
  | EmptyString => EmptyString
  | String c r =>
      if String.eqb (trimStart s) EmptyString then EmptyString
      else String c (trimEnd r)
  end.

Definition digitOfChar (c : ascii) : option Z :=
  let n := Z.of_nat (nat_of_ascii c) in
  if (48 <=? n) && (n <=? 57) then Some (n - 48)
  else if (97 <=? n) && (n <=? 102) then Some (n - 87)
  else if (65 <=? n) && (n <=? 70) then Some (n - 55)
  else None.

(** Digits of a literal in the given radix, most significant first. *)
Fixpoint digitsInRadix (radix : Z) (acc : Z) (s : string) : option Z :=
  match s with
  | EmptyString => Some acc
  | String c r =>
      match digitOfChar c with
      | Some d => if d <? radix then digitsInRadix radix (radix * acc + d) r else None
      | None => None
      end
  end.

Definition nonDecimalLiteral (radix : Z) (digits : string) : option Z :=
  match digits with
  | EmptyString => None
  | _ => digitsInRadix radix 0 digits
  end.

(** The language's StringToBigInt: white space is trimmed, the empty
    string is zero, a [0x]/[0o]/[0b] literal carries no sign, a decimal
    literal may carry one; anything else does not parse. *)
Definition stringToBigInt (s : string) : option Z :=
  match trimEnd (trimStart s) with
  | EmptyString => Some 0
  | String "0" (String "x" r) | String "0" (String "X" r) => nonDecimalLiteral 16 r
  | String "0" (String "o" r) | String "0" (String "O" r) => nonDecimalLiteral 8 r
  | String "0" (String "b" r) | String "0" (String "B" r) => nonDecimalLiteral 2 r
  | String "+" r => option_map Z.of_uint (NilZero.uint_of_string r)
  | t => option_map Z.of_int (NilZero.int_of_string t)
  end%char.

Definition cannotConvert (what : string) : Thrown :=
  ErrorObj "SyntaxError" ("Cannot convert " +:+ what +:+ " to a BigInt").

(** [BigInt(v)]; [None] stands for [undefined]. *)
Definition BigInt (v : option JsValue) : Thrown + Z :=
  match v with
  | None => inl (ErrorObj "TypeError" "Cannot convert undefined to a BigInt")
  | Some JNull => inl (ErrorObj "TypeError" "Cannot convert null to a BigInt")
  | Some (JBool b) => inr (if b then 1 else 0)
  | Some (JNum n) => inr n
  | Some (JBigInt n) => inr n
  | Some (JStr s) =>
      match stringToBigInt s with
      | Some n => inr n
      | None => inl (cannotConvert s)
      end
  | Some (JObj _) => inl (cannotConvert "[object Object]")
  end.

(** ** The in-memory document store ([test/support/inMemoryRealtimeDb.ts]) *)

(** The tree is a record of records, stored by value: no object of the
    store is reachable along two paths.  A record's keys are its own keys,
    which is what [segment in node], [node[segment]] and [delete] see for
    every segment that does not name a member of [Object.prototype]
    ([ownKeysOnly] below says so of a path); on the other segments the store
    would reach the inherited member. *)

(** [path.split('/')]. *)
Fixpoint splitSlash (s : string) : list string :=
  match s with
  | EmptyString => [EmptyString]
  | String c r =>
      if Ascii.eqb c "/" then EmptyString :: splitSlash r
      else match splitSlash r with
           | h :: t => String c h :: t
           | [] => [String c EmptyString]
           end
  end.

Definition normalizePath (path : string) : list string :=
  List.filter (fun segment => negb (String.eqb segment "")) (splitSlash path).

Definition isRecord (value : JsValue) : bool :=
  match value with
  | JObj _ => true
  | _ => false
  end.

(** The loop of [get]: one step down per segment, [null] as soon as the
    node is not a record or lacks the key. *)
Fixpoint getIn (segments : list string) (node : JsValue) : JsValue :=
  match segments with
  | [] => node
  | segment :: rest =>
      match node with
      | JObj fields =>
          match fields !! segment with
          | Some child => getIn rest child
          | None => JNull
          end
      | _ => JNull
      end
  end.

Definition dbGet (root : gmap string JsValue) (path : string) : JsValue :=
  match normalizePath path with
  | [] => if decide (size root = 0%nat) then JNull else JObj root
  | segments => getIn segments (JObj root)
  end.

(** The loop of [set]: intermediate nodes that are not records are
    replaced by fresh ones; the last segment receives the value. *)
Fixpoint setIn (segments : list string) (value : JsValue)
    (node : gmap string JsValue) : gmap string JsValue :=
  match segments with
  | [] => node
  | segment :: rest =>
      match rest with
      | [] => <[segment := value]> node
      | _ =>
          let current :=
            match node !! segment with
            | Some (JObj fields) => fields
            | _ => ∅
            end in
          <[segment := JObj (setIn rest value current)]> node
      end
  end.

Definition dbSet (root : gmap string JsValue) (path : string) (value : JsValue)
    : gmap string JsValue :=
  match normalizePath path with
  | [] => match value with JObj fields => fields | _ => ∅ end
  | segments => setIn segments value root
  end.

(** The loop of [remove]: nothing happens when the walk leaves the
    records; otherwise the last key is deleted from its parent. *)
Fixpoint removeIn (segments : list string) (node : gmap string JsValue)
    : gmap string JsValue :=
  match segments with
  | [] => node
  | segment :: rest =>
      match rest with
      | [] => delete segment node
      | _ =>
          match node !! segment with
          | Some (JObj fields) => <[segment := JObj (removeIn rest fields)]> node
          | _ => node
          end
      end
  end.

Definition dbRemove (root : gmap string JsValue) (path : string)
    : gmap string JsValue :=
  match normalizePath path with
  | [] => ∅
  | segments => removeIn segments root
  end.

(** ** The outside world and computations over it *)

(** How one [once('value')] call will settle: after [latency]
    milliseconds, rejected with [rejection] or resolved with a snapshot. *)
Record Fetch : Type := mkFetch {
  latency : Z;
  rejection : option Thrown;
}.

(** The database as the engine meets it: the stored tree, and what the
    next calls on the client will do.  [fetches] is consumed by
    [once('value')], [writes] by [set] and [remove], [connection] by
    [goOffline] and [goOnline]; [Some t] is a call failing with [t], and an
    exhausted script lets every further call succeed at once. *)
Record World : Type := mkWorld {
  root : gmap string JsValue;
  fetches : list Fetch;
  writes : list (option Thrown);
  connection : list (option Thrown);
}.

(** Calls made on the database client, in order. *)
Inductive Op : Type :=
  | OpOnce (path : string)
  | OpSet (path : string) (value : JsValue)
  | OpRemove (path : string)
  | OpGoOffline
  | OpGoOnline
  | OpSleep (ms : Z).

Record Outcome (A : Type) : Type := mkOutcome {
  result : Thrown + A;
  final : World;
  trace : list Op;
}.
Arguments mkOutcome {A} _ _ _.
Arguments result {A} _.
Arguments final {A} _.
Arguments trace {A} _.

Definition M (A : Type) : Type := World -> Outcome A.

Definition ret {A} (a : A) : M A := fun w => mkOutcome (inr a) w [].

Definition throw {A} (t : Thrown) : M A := fun w => mkOutcome (inl t) w [].

Definition bind {A B} (c : M A) (k : A -> M B) : M B := fun w =>
  let o := c w in
  match result o with
  | inl t => mkOutcome (inl t) (final o) (trace o)
  | inr a =>
      let o' := k a (final o) in
      mkOutcome (result o') (final o') (trace o ++ trace o')
  end.

(** [try { c } catch (error) { handler }]. *)
Definition tryCatch {A} (c : M A) (handler : Thrown -> M A) : M A := fun w =>
  let o := c w in
  match result o with
  | inl t =>
      let o' := handler t (final o) in
      mkOutcome (result o') (final o') (trace o ++ trace o')
  | inr a => o
  end.

Declare Scope js_scope.
Delimit Scope js_scope with js.
Notation "'let!' x ':=' c 'in' k" := (bind c (fun x => k))
  (at level 10, x name, c at level 100, k at level 200) : js_scope.
Notation "'do!' c 'in' k" := (bind c (fun _ => k))
  (at level 10, c at level 100, k at level 200) : js_scope.
Local Open Scope js_scope.

(** A promise that has been created and will settle by itself. *)
Record Promise (A : Type) : Type := mkPromise {
  settlesAfter : Z;
  settlement : Thrown + A;
}.
Arguments mkPromise {A} _ _.
Arguments settlesAfter {A} _.
Arguments settlement {A} _.

Definition await {A} (p : Promise A) : M A := fun w =>
  mkOutcome (settlement p) w [].

Record DataSnapshot : Type := mkSnapshot { val : JsValue }.

Definition promptFetch : Fetch := mkFetch 0 None.

(** [ref.once('value')]: the read is issued now and sees the tree as it
    is now. *)
Definition once (path : string) : M (Promise DataSnapshot) := fun w =>
  let f := hd promptFetch (fetches w) in
  let settled :=
    match rejection f with
    | Some t => inl t
    | None => inr (mkSnapshot (dbGet (root w) path))
    end in
  mkOutcome (inr (mkPromise (latency f) settled))
    (mkWorld (root w) (tl (fetches w)) (writes w) (connection w))
    [OpOnce path].

(** [ref.set(value)]; a rejected write leaves the tree as it was. *)
Definition refSet (path : string) (value : JsValue) : M unit := fun w =>
  match hd None (writes w) with
  | Some t =>
      mkOutcome (inl t)
        (mkWorld (root w) (fetches w) (tl (writes w)) (connection w))
        [OpSet path value]
  | None =>
      mkOutcome (inr tt)
        (mkWorld (dbSet (root w) path value) (fetches w) (tl (writes w)) (connection w))
        [OpSet path value]
  end.

(** [ref.remove()]. *)
Definition refRemove (path : string) : M unit := fun w =>
  match hd None (writes w) with
  | Some t =>
      mkOutcome (inl t)
        (mkWorld (root w) (fetches w) (tl (writes w)) (connection w))
        [OpRemove path]
  | None =>
      mkOutcome (inr tt)
        (mkWorld (dbRemove (root w) path) (fetches w) (tl (writes w)) (connection w))
        [OpRemove path]
  end.

Definition connectionCall (op : Op) : M unit := fun w =>
  mkOutcome
    (match hd None (connection w) with Some t => inl t | None => inr tt end)
    (mkWorld (root w) (fetches w) (writes w) (tl (connection w)))
    [op].

Definition goOffline : M unit := connectionCall OpGoOffline.
Definition goOnline : M unit := connectionCall OpGoOnline.

Definition sleep (ms : Z) : M unit := fun w => mkOutcome (inr tt) w [OpSleep ms].

(** A synchronous result entering the asynchronous flow: a [throw] or a
    value. *)
Definition liftResult {A} (r : Thrown + A) : M A :=
  match r with
  | inl t => throw t
  | inr a => ret a
  end.

(** ** The retrying reader ([realtimeDBInlineProjection.ts], lines 18-97) *)

Definition READ_TIMEOUTS_MS : list Z := [5000; 8000; 12000].

Definition TIMEOUT_ERROR_MESSAGE : string := "Realtime DB read timed out.".

(** [Promise.race] of the read against a timer of [timeoutMs].  The read
    was issued before the timer is armed, so at equal delay it settles
    first: the timer wins only when the read settles strictly later. *)
Definition withTimeout {A} (promise : Promise A) (timeoutMs : Z) : M A :=
  if settlesAfter promise <=? timeoutMs
  then await promise
  else throw (ErrorObj "Error" TIMEOUT_ERROR_MESSAGE).

Definition isTimeoutError (error : Thrown) : bool :=
  match error with
  | ErrorObj _ message => String.eqb message TIMEOUT_ERROR_MESSAGE
  | NonError _ => false
  end.

Definition resetRealtimeDbConnection : M unit :=
  tryCatch (do! goOffline in goOnline) (fun _ => ret tt).

(** What is thrown once the attempts are used up. *)
Definition afterRetries (lastError : option Thrown) : Thrown :=
  match lastError with
  | Some (ErrorObj name message) => ErrorObj name message
  | _ => ErrorObj "Error" "Realtime DB read failed after retries."
  end.

(** The body of the [catch] block of one attempt. *)
Definition onReadFailure (attempt : nat) (error : Thrown) : M unit :=
  do! (if isTimeoutError error then resetRealtimeDbConnection else ret tt) in
  if (attempt <? length READ_TIMEOUTS_MS - 1)%nat
  then sleep (500 * (Z.of_nat attempt + 1))
  else ret tt.

(** The [for] loop over the attempts: [timeouts] holds
    [READ_TIMEOUTS_MS[attempt]], [READ_TIMEOUTS_MS[attempt + 1]], ... *)
Fixpoint readAttempts (timeouts : list Z) (attempt : nat)
    (lastError : option Thrown) (projectionRef : string) : M DataSnapshot :=
  match timeouts with
  | [] => throw (afterRetries lastError)
  | timeoutMs :: later =>
      tryCatch
        (let! promise := once projectionRef in withTimeout promise timeoutMs)
        (fun error =>
           do! onReadFailure attempt error in
           readAttempts later (S attempt) (Some error) projectionRef)
  end.

Definition readSnapshotWithRetry (projectionRef : string) : M DataSnapshot :=
  readAttempts READ_TIMEOUTS_MS 0 None projectionRef.

(** ** Events and projection definitions ([types.ts]) *)

Abbreviation Obj := (gmap string JsValue).

Record Event : Type := mkEvent {
  type : string;
  data : JsValue;
}.

Record RealtimeDBReadEventMetadata : Type := mkEventMetadata {
  streamName : string;
  streamPosition : Z;
  messageId : string;
}.

(** A read event is the appended event together with its metadata. *)
Record ReadEvent : Type := mkReadEvent {
  event : Event;
  metadata : RealtimeDBReadEventMetadata;
}.

Record RealtimeDBProjectionInlineHandlerContext : Type := mkContext {
  document : JsValue;
  streamId : string;
  projectionRef : string;
}.

Record RealtimeDBInlineProjectionDefinition : Type := mkDefinition {
  name : string;
  canHandle : list string;
  handle : list ReadEvent -> RealtimeDBProjectionInlineHandlerContext -> M unit;
}.

Module Options.
(** [RealtimeDBInlineProjectionOptions]: [initialState] is [None] when
    the options object has no such key.  [evolve] returns a state or
    [null], or throws; it may be handed [null] whatever its declared
    type. *)
Record t : Type := mk {
  name : option string;
  schemaVersion : option Z;
  canHandle : list string;
  evolve : option Obj -> ReadEvent -> Thrown + option Obj;
  initialState : option (unit -> Obj);
}.
End Options.

(** ** The projection applier ([realtimeDBInlineProjection]) *)

Definition typeOf (v : JsValue) : string :=
  match v with
  | JNull | JObj _ => "object"
  | JBool _ => "boolean"
  | JNum _ => "number"
  | JBigInt _ => "bigint"
  | JStr _ => "string"
  end.

(** The raw state: the stored document without its [_metadata]. *)
Definition rawDocumentOf (document : JsValue) : option Obj :=
  if truthy document && String.eqb (typeOf document) "object" then
    match document with
    | JObj fields =>
        match fields !! "_metadata" with
        | Some _ => Some (delete "_metadata" fields)
        | None => Some fields
        end
    | _ => None
    end
  else None.

(** The state the fold starts from. *)
Definition workingState (options : Options.t) (document : JsValue) : option Obj :=
  let rawDocument := rawDocumentOf document in
  match Options.initialState options with
  | Some initialState =>
      Some (match rawDocument with
            | Some raw => raw
            | None => initialState tt
            end)
  | None => rawDocument
  end.

(** [for (const event of events) state = await options.evolve(state, event)]. *)
Fixpoint evolveAll (evolve : option Obj -> ReadEvent -> Thrown + option Obj)
    (events : list ReadEvent) (state : option Obj) : Thrown + option Obj :=
  match events with
  | [] => inr state
  | event :: later =>
      match evolve state event with
      | inl t => inl t
      | inr state' => evolveAll evolve later state'
      end
  end.

Definition readModelMetadata (streamId name : string) (schemaVersion : Z)
    (streamPosition : string) : JsValue :=
  JObj (<["streamId" := JStr streamId]>
       (<["name" := JStr name]>
       (<["schemaVersion" := JNum schemaVersion]>
       (<["streamPosition" := JStr streamPosition]> ∅)))).

Definition projectionNameOf (options : Options.t) : string :=
  default "_default" (Options.name options).

Definition schemaVersionOf (options : Options.t) : Z :=
  default 1 (Options.schemaVersion options).

Definition realtimeDBInlineProjection (options : Options.t)
    : RealtimeDBInlineProjectionDefinition :=
  let projectionName := projectionNameOf options in
  let schemaVersion := schemaVersionOf options in
  {| name := projectionName;
     canHandle := Options.canHandle options;
     handle := fun events ctx =>
       match events with
       | [] => ret tt
       | first :: _ =>
           let state := workingState options (document ctx) in
           let! state := liftResult (evolveAll (Options.evolve options) events state) in
           let metadata :=
             readModelMetadata (streamId ctx) projectionName schemaVersion
               (bigintToString (streamPosition (metadata (List.last events first)))) in
           match state with
           | Some fields => refSet (projectionRef ctx) (JObj (<["_metadata" := metadata]> fields))
           | None => refRemove (projectionRef ctx)
           end
       end |}.

(** ** The dispatcher ([handleInlineProjections]) *)

Definition projectionPath (projectionName streamId : string) : string :=
  "projections/" +:+ projectionName +:+ "/" +:+ streamId.

Definition handleSingleProjection (projection : RealtimeDBInlineProjectionDefinition)
    (events : list ReadEvent) (streamId : string) : M unit :=
  let projectionRef := projectionPath (name projection) streamId in
  let! snapshot := readSnapshotWithRetry projectionRef in
  let document := val snapshot in
  handle projection events (mkContext document streamId projectionRef).

(** [eventTypes.includes(type)]. *)
Definition includes (eventTypes : list string) (type : string) : bool :=
  existsb (String.eqb type) eventTypes.

(** [p.canHandle.some((type) => eventTypes.includes(type))]. *)
Definition matchesEvents (eventTypes : list string)
    (p : RealtimeDBInlineProjectionDefinition) : bool :=
  existsb (includes eventTypes) (canHandle p).

(** [for (const projection of projections) await handleSingleProjection(...)]. *)
Fixpoint forEachProjection (projections : list RealtimeDBInlineProjectionDefinition)
    (events : list ReadEvent) (streamId : string) : M unit :=
  match projections with
  | [] => ret tt
  | projection :: later =>
      do! handleSingleProjection projection events streamId in
      forEachProjection later events streamId
  end.

Definition handleInlineProjections (events : list ReadEvent)
    (allProjections : list RealtimeDBInlineProjectionDefinition)
    (streamId : string) : M unit :=
  let eventTypes := List.map (fun e => type (event e)) events in
  let projections := List.filter (matchesEvents eventTypes) allProjections in
  forEachProjection projections events streamId.

(** ** The append interceptor ([wireRealtimeDBProjections.ts]) *)

(** What the wrapped [appendToStream] resolves with: the two version
    fields the interceptor looks at, absent ([None]) or present. *)
Record AppendResult : Type := mkAppendResult {
  nextExpectedStreamVersion : option JsValue;
  streamVersion : option JsValue;
}.

Definition versionValueOf (result : AppendResult) : option JsValue :=
  nullish (nextExpectedStreamVersion result) (streamVersion result).

(** [typeof versionValue === 'bigint' ? versionValue : BigInt(versionValue)]. *)
Definition nextVersionOf (result : AppendResult) : Thrown + Z :=
  let versionValue := versionValueOf result in
  match versionValue with
  | Some (JBigInt v) => inr v
  | _ => BigInt versionValue
  end.

(** The callback of [events.map((event, index) => ...)]. *)
Definition toReadEvent (streamName : string) (nextVersion eventsLength : Z)
    (index : nat) (e : Event) : ReadEvent :=
  let position := nextVersion - eventsLength + 1 + Z.of_nat index in
  {| event := e;
     metadata :=
       {| streamName := streamName;
          streamPosition := position;
          messageId := streamName +:+ "-" +:+ bigintToString position |} |}.

Definition readEventsOf (streamName : string) (nextVersion : Z)
    (events : list Event) : list ReadEvent :=
  let eventsLength := Z.of_nat (length events) in
  imap (toReadEvent streamName nextVersion eventsLength) events.

(** The replacement of [eventStore.appendToStream]; [originalAppend] is
    the store's own method, already applied to the caller's arguments. *)
Definition appendToStream (originalAppend : M AppendResult)
    (projections : list RealtimeDBInlineProjectionDefinition)
    (streamName : string) (events : list Event) : M AppendResult :=
  let! result := originalAppend in
  let! nextVersion := liftResult (nextVersionOf result) in
  let readEvents := readEventsOf streamName nextVersion events in
  do! handleInlineProjections readEvents projections streamName in
  ret result.

(** ** Test helpers ([realtimeDBInlineProjectionSpec.ts]) *)

Definition testProjection (projection : RealtimeDBInlineProjectionDefinition)
    (events : list ReadEvent) (streamId : string) : M unit :=
  let projectionRef := projectionPath (name projection) streamId in
  let! promise := once projectionRef in
  let! snapshot := await promise in
  let document := val snapshot in
  handle projection events (mkContext document streamId projectionRef).

(** [data._metadata && typeof data._metadata.streamPosition === 'string']:
    the position to convert, when there is one; a property access on a
    value that is not an object gives [undefined]. *)
Definition stringPositionOf (data : JsValue) : option string :=
  match data with
  | JObj fields =>
      match fields !! "_metadata" with
      | Some (JObj meta) =>
          match meta !! "streamPosition" with
          | Some (JStr position) => Some position
          | _ => None
          end
      | _ => None
      end
  | _ => None
  end.

(** [data] once [data._metadata.streamPosition = position] has been
    executed. *)
Definition withStreamPosition (data position : JsValue) : JsValue :=
  match data with
  | JObj fields =>
      match fields !! "_metadata" with
      | Some (JObj meta) =>
          JObj (<["_metadata" := JObj (<["streamPosition" := position]> meta)]> fields)
      | _ => data
      end
  | _ => data
  end.

(** The assignment is made on the object the snapshot holds, and the
    in-memory store hands out the object it stores at [ref]: the assignment
    shows in the tree. *)
Definition assignStreamPosition (ref : string) (position : JsValue) : M unit := fun w =>
  mkOutcome (inr tt)
    (mkWorld
       (setIn (normalizePath ref ++ ["_metadata"; "streamPosition"]) position (root w))
       (fetches w) (writes w) (connection w))
    [].

Definition getProjectionState (projectionName streamId : string) : M JsValue :=
  let ref := projectionPath projectionName streamId in
  let! promise := once ref in
  let! snapshot := await promise in
  let data := val snapshot in
  if negb (truthy data) then ret JNull
  else
    match stringPositionOf data with
    | Some position =>
        let! converted := liftResult (BigInt (Some (JStr position))) in
        do! assignStreamPosition ref (JBigInt converted) in
        ret (withStreamPosition data (JBigInt converted))
    | None => ret data
    end.

Definition clearProjection (projectionName streamId : string) : M unit :=
  refRemove (projectionPath projectionName streamId).

Definition clearAllProjections : M unit := refRemove "projections".

(** ** Fixtures ([test/fixtures/projections.ts], [test/fixtures/events.ts]) *)

Module Fixtures.

Definition createReadEvent (e : Event) (streamPosition : Z) (streamName : string)
    : ReadEvent :=
  {| event := e;
     metadata :=
       {| streamName := streamName;
          streamPosition := streamPosition;
          messageId := "msg-" +:+ bigintToString streamPosition |} |}.

Definition itemAdded (itemId : string) (quantity : Z) (position : Z) : ReadEvent :=
  createReadEvent
    (mkEvent "ItemAdded"
       (JObj (<["itemId" := JStr itemId]> (<["quantity" := JNum quantity]> ∅))))
    position "test-stream".

Definition itemRemoved (itemId : string) (position : Z) : ReadEvent :=
  createReadEvent
    (mkEvent "ItemRemoved" (JObj (<["itemId" := JStr itemId]> ∅)))
    position "test-stream".

(** [CounterState = { count: number }]; reading [state.count] of [null]
    is a [TypeError].  The function is the fixture's on states of its
    declared type; a state without a numeric [count] is outside that type
    and is returned as it is. *)
Definition counterEvolve (state : option Obj) (e : ReadEvent) : Thrown + option Obj :=
  let step (delta : Z) : Thrown + option Obj :=
    match state with
    | None =>
        inl (ErrorObj "TypeError" "Cannot read properties of null (reading 'count')")
    | Some fields =>
        match fields !! "count" with
        | Some (JNum count) => inr (Some (<["count" := JNum (count + delta)]> ∅))
        | _ => inr state
        end
    end in
  if String.eqb (type (event e)) "ItemAdded" then step 1
  else if String.eqb (type (event e)) "ItemRemoved" then step (-1)
  else inr state.

Definition counterOptions : Options.t :=
  {| Options.name := Some "test-counter";
     Options.schemaVersion := None;
     Options.canHandle := ["ItemAdded"; "ItemRemoved"];
     Options.evolve := counterEvolve;
     Options.initialState := Some (fun _ => <["count" := JNum 0]> ∅) |}.

Definition counterProjection : RealtimeDBInlineProjectionDefinition :=
  realtimeDBInlineProjection counterOptions.

(** The projection without initial state. *)
Definition nullableEvolve (state : option Obj) (e : ReadEvent) : Thrown + option Obj :=
  if String.eqb (type (event e)) "ItemAdded" && bool_decide (state = None)
  then inr (Some (<["value" := JStr "created"]> ∅))
  else if String.eqb (type (event e)) "ItemRemoved" && negb (bool_decide (state = None))
  then inr None
  else inr state.

Definition nullableOptions : Options.t :=
  {| Options.name := Some "test-nullable";
     Options.schemaVersion := None;
     Options.canHandle := ["ItemAdded"; "ItemRemoved"];
     Options.evolve := nullableEvolve;
     Options.initialState := None |}.

Definition nullableProjection : RealtimeDBInlineProjectionDefinition :=
  realtimeDBInlineProjection nullableOptions.

(** The projection with a custom schema version. *)
Definition versionedOptions : Options.t :=
  {| Options.name := Some "test-versioned";
     Options.schemaVersion := Some 2;
     Options.canHandle := ["ItemAdded"];
     Options.evolve := fun state _ => inr state;
     Options.initialState := Some (fun _ => <["data" := JStr "v2"]> ∅) |}.

Definition versionedProjection : RealtimeDBInlineProjectionDefinition :=
  realtimeDBInlineProjection versionedOptions.

End Fixtures.

(** A world with an empty tree in which every call succeeds at once. *)
Definition emptyWorld : World := mkWorld ∅ [] [] [].

(** ** Reading traces *)

Definition opPath (op : Op) : option string :=
  match op with
  | OpOnce path | OpSet path _ | OpRemove path => Some path
  | _ => None
  end.

(** The call addresses one of the given paths, if it addresses any. *)
Definition touchesOnly (paths : list string) (op : Op) : Prop :=
  forall path, opPath op = Some path -> path ∈ paths.

(** A call of the read phase of one projection: a read of its own path,
    a reconnect, a back-off. *)
Definition readPhaseOp (path : string) (op : Op) : Prop :=
  match op with
  | OpOnce q => q = path
  | OpGoOffline | OpGoOnline | OpSleep _ => True
  | OpSet _ _ | OpRemove _ => False
  end.

Definition writeAt (path : string) (op : Op) : Prop :=
  match op with
  | OpSet q _ | OpRemove q => q = path
  | _ => False
  end.

(** What handling one projection leaves in the trace: its document is
    read (more than once when the reader retries), then written once. *)
Definition projectionBlock (path : string) (block : list Op) : Prop :=
  exists reads write,
    block = OpOnce path :: reads ++ [write]
    /\ Forall (readPhaseOp path) reads
    /\ writeAt path write.

Definition isOnce (op : Op) : bool :=
  match op with
  | OpOnce _ => true
  | _ => false
  end.

Definition isGoOffline (op : Op) : bool :=
  match op with
  | OpGoOffline => true
  | _ => false
  end.

(** The calls up to the next read. *)
Fixpoint untilRead (ops : list Op) : list Op :=
  match ops with
  | [] => []
  | op :: later => if isOnce op then [] else op :: untilRead later
  end.

(** For every read of the trace, in order, the calls that follow it before
    the next read. *)
Fixpoint afterEachRead (ops : list Op) : list (list Op) :=
  match ops with
  | [] => []
  | op :: later =>
      if isOnce op then untilRead later :: afterEachRead later
      else afterEachRead later
  end.

Definition resetCount (ops : list Op) : nat :=
  length (List.filter isGoOffline ops).

(** How one attempt ends, from the fetch it issues and its timer: [None]
    is a snapshot, [Some error] the value caught by the loop. *)
Definition attemptFailure (f : Fetch) (timeoutMs : Z) : option Thrown :=
  if latency f <=? timeoutMs then rejection f
  else Some (ErrorObj "Error" TIMEOUT_ERROR_MESSAGE).

(** The errors of the failed attempts, in order, up to the first attempt
    that succeeds. *)
Fixpoint attemptErrors (timeouts : list Z) (fetches : list Fetch) : list Thrown :=
  match timeouts with
  | [] => []
  | timeoutMs :: later =>
      match attemptFailure (hd promptFetch fetches) timeoutMs with
      | Some error => error :: attemptErrors later (tl fetches)
      | None => []
      end
  end.

(** ** Reading and applying, as the specification words it *)

(** One projection is read and applied: its document is read by the
    retrying reader at [projections/{name}/{streamId}]; when the read fails
    that is the outcome, and otherwise [handle] is called with the batch,
    the document read, the stream id and the reference, from the world the
    read left. *)
Inductive readAndApplied (events : list ReadEvent) (sid : string)
    (p : RealtimeDBInlineProjectionDefinition) (w : World) : Outcome unit -> Prop :=
  | read_failed t :
      result (readSnapshotWithRetry (projectionPath (name p) sid) w) = inl t ->
      readAndApplied events sid p w
        (mkOutcome (inl t)
           (final (readSnapshotWithRetry (projectionPath (name p) sid) w))
           (trace (readSnapshotWithRetry (projectionPath (name p) sid) w)))
  | read_and_applied snapshot applied :
      result (readSnapshotWithRetry (projectionPath (name p) sid) w) = inr snapshot ->
      applied =
        handle p events
          (mkContext (val snapshot) sid (projectionPath (name p) sid))
          (final (readSnapshotWithRetry (projectionPath (name p) sid) w)) ->
      readAndApplied events sid p w
        (mkOutcome (result applied) (final applied)
           (trace (readSnapshotWithRetry (projectionPath (name p) sid) w)
            ++ trace applied)).

(** The projections of a list are read and applied one after the other,
    each from the world the one before left, until one fails. *)
Inductive readAndAppliedInOrder (events : list ReadEvent) (sid : string)
    : list RealtimeDBInlineProjectionDefinition -> World -> Outcome unit -> Prop :=
  | applied_none w :
      readAndAppliedInOrder events sid [] w (mkOutcome (inr tt) w [])
  | applied_until p later w o t :
      readAndApplied events sid p w o ->
      result o = inl t ->
      readAndAppliedInOrder events sid (p :: later) w
        (mkOutcome (inl t) (final o) (trace o))
  | applied_then p later w o o' :
      readAndApplied events sid p w o ->
      result o = inr tt ->
      readAndAppliedInOrder events sid later (final o) o' ->
      readAndAppliedInOrder events sid (p :: later) w
        (mkOutcome (result o') (final o') (trace o ++ trace o')).

(** ** Decimal numerals *)

Definition isDigit (c : ascii) : bool :=
  match c with
  | "0" | "1" | "2" | "3" | "4" | "5" | "6" | "7" | "8" | "9" => true
  | _ => false
  end%char.

Fixpoint allDigits (s : string) : bool :=
  match s with
  | EmptyString => true
  | String c r => isDigit c && allDigits r
  end.

(** A decimal numeral as [toString] prints it: digits, after an optional
    minus sign. *)
Definition isNumeral (s : string) : bool :=
  match s with
  | EmptyString => false
  | String c r => (Ascii.eqb c "-" || isDigit c) && allDigits r
  end.

(** ** Statements examined below *)

(** Property P4 read to the letter, at one input: a [null] returned by
    [evolve] anywhere in the fold leaves no document at the reference. *)
Definition deletedWheneverNull (options : Options.t) (doc : JsValue)
    (sid ref : string) (events : list ReadEvent) (w : World) : Prop :=
  (exists k, evolveAll (Options.evolve options) (take (S k) events)
               (workingState options doc) = inr None) ->
  dbGet (root (final (handle (realtimeDBInlineProjection options) events
                        (mkContext doc sid ref) w))) ref = JNull.



(** The last sentence of C10 read to the letter, at one path and world:
    the helper returns [null] exactly when nothing is stored at the path. *)
Definition nullExactlyWhenNothingStored (projectionName sid : string) (w : World)
    : Prop :=
  result (getProjectionState projectionName sid w) = inr JNull <->
  dbGet (root w) (projectionPath projectionName sid) = JNull.

(** ** Paths and traces, continued *)

(** The two segment lists part ways: after a common prefix, possibly
    empty, both go on with different segments. *)
Fixpoint diverges (a b : list string) : bool :=
  match a, b with
  | x :: a', y :: b' => if String.eqb x y then diverges a' b' else true
  | _, _ => false
  end.

Fixpoint hasSlash (s : string) : bool :=
  match s with
  | EmptyString => false
  | String c r => Ascii.eqb c "/" || hasSlash r
  end.

(** A string that makes one path segment: not empty, no slash. *)
Definition isSegment (s : string) : bool :=
  negb (String.eqb s "") && negb (hasSlash s).

(** The members of [Object.prototype], which every record inherits. *)
Definition objectPrototypeKeys : list string :=
  ["constructor"; "__defineGetter__"; "__defineSetter__"; "hasOwnProperty";
   "__lookupGetter__"; "__lookupSetter__"; "isPrototypeOf"; "propertyIsEnumerable";
   "toString"; "valueOf"; "__proto__"; "toLocaleString"].

(** No segment of the path names an inherited member: along such a path
    the store meets own keys only. *)
Definition ownKeysOnly (path : string) : bool :=
  forallb (fun segment => negb (existsb (String.eqb segment) objectPrototypeKeys))
    (normalizePath path).

(** The back-off delays of a trace, in order. *)
Definition sleepsOf (ops : list Op) : list Z :=
  omap (fun op => match op with OpSleep ms => Some ms | _ => None end) ops.

(** * Properties *)

(** ** BigInt and decimal numerals *)

Lemma isDigit_cases c :
  isDigit c = true ->
  In c ["0"; "1"; "2"; "3"; "4"; "5"; "6"; "7"; "8"; "9"]%char.
Proof.
  destruct c as [[] [] [] [] [] [] [] []]; simpl; intros H;
    try discriminate H; tauto.
Qed.

(** A numeral starts with no white space. *)
Lemma whiteSpaceLength_numeral c r :
  (Ascii.eqb c "-" || isDigit c)%char = true -> whiteSpaceLength (String c r) = 0%nat.
Proof.
  intros [Hc | Hc]%orb_prop.
  - apply Ascii.eqb_eq in Hc. subst c. reflexivity.
  - apply isDigit_cases in Hc. simpl in Hc.
    repeat (destruct Hc as [<- | Hc]; [reflexivity |]). destruct Hc.
Qed.

Lemma trimStart_numeral c r :
  (Ascii.eqb c "-" || isDigit c)%char = true -> trimStart (String c r) = String c r.
Proof.
  intros Hc. unfold trimStart. cbn [trimStartFrom].
  by rewrite whiteSpaceLength_numeral.
Qed.

Lemma allDigits_trimEnd s : allDigits s = true -> trimEnd s = s.
Proof.
  induction s as [| c r IH]; cbn [allDigits trimEnd]; [reflexivity |].
  intros [Hc Hr]%andb_prop.
  rewrite trimStart_numeral by (rewrite Hc; apply orb_true_r).
  cbn [String.eqb]. by rewrite IH.
Qed.

Lemma isNumeral_trim s : isNumeral s = true -> trimEnd (trimStart s) = s.
Proof.
  destruct s as [| c r]; [discriminate |].
  cbn [isNumeral]. intros [Hc Hr]%andb_prop.
  rewrite trimStart_numeral by exact Hc. cbn [trimEnd].
  rewrite trimStart_numeral by exact Hc. cbn [String.eqb].
  by rewrite allDigits_trimEnd.
Qed.

Lemma stringToBigInt_numeral s :
  isNumeral s = true ->
  stringToBigInt s = option_map Z.of_int (NilZero.int_of_string s).
Proof.
  intros Hs. unfold stringToBigInt. rewrite isNumeral_trim by exact Hs.
  destruct s as [| c r]; [discriminate |].
  cbn [isNumeral] in Hs. apply andb_prop in Hs as [Hc Hr].
  apply orb_prop in Hc as [Hc | Hc].
  - apply Ascii.eqb_eq in Hc. subst c. reflexivity.
  - apply isDigit_cases in Hc. simpl in Hc.
    destruct Hc as [<- | Hc].
    + destruct r as [| c2 r2]; [reflexivity |].
      cbn [allDigits] in Hr. apply andb_prop in Hr as [Hc2 _].
      apply isDigit_cases in Hc2. simpl in Hc2.
      repeat (destruct Hc2 as [<- | Hc2]; [reflexivity |]). destruct Hc2.
    + repeat (destruct Hc as [<- | Hc]; [reflexivity |]). destruct Hc.
Qed.

Lemma string_of_uint_digits d : allDigits (NilEmpty.string_of_uint d) = true.
Proof. induction d; simpl; auto. Qed.

Lemma bigintToString_numeral n : isNumeral (bigintToString n) = true.
Proof.
  unfold bigintToString.
  destruct (Z.to_int n) as [d | d]; simpl.
  - destruct d; simpl; try reflexivity; apply string_of_uint_digits.
  - destruct d; simpl; try reflexivity; apply string_of_uint_digits.
Qed.

Lemma to_int_not_nil n : Z.to_int n <> Decimal.Pos Decimal.Nil /\ Z.to_int n <> Decimal.Neg Decimal.Nil.
Proof.
  destruct n as [| p | p]; simpl; split; try discriminate.
  - intros [= H]. by apply (DecimalPos.Unsigned.to_uint_nonnil p).
  - intros [= H]. by apply (DecimalPos.Unsigned.to_uint_nonnil p).
Qed.

Lemma BigInt_toString n : BigInt (Some (JStr (bigintToString n))) = inr n.
Proof.
  unfold BigInt. rewrite stringToBigInt_numeral by apply bigintToString_numeral.
  unfold bigintToString.
  destruct (to_int_not_nil n) as [Hp Hn].
  rewrite NilZero.isi by assumption. simpl. by rewrite DecimalZ.of_to.
Qed.

(** ** The document store *)

Section Store.
Implicit Types (root node : gmap string JsValue) (value : JsValue).

Lemma getIn_setIn segments value node :
  segments <> [] -> getIn segments (JObj (setIn segments value node)) = value.
Proof.
  revert node. induction segments as [| segment rest IH]; intros node Hne; [done |].
  destruct rest as [| next rest'].
  - cbn. by rewrite lookup_insert_eq.
  - cbn [setIn getIn]. rewrite lookup_insert_eq. by apply IH.
Qed.

Lemma getIn_removeIn segments node :
  segments <> [] -> getIn segments (JObj (removeIn segments node)) = JNull.
Proof.
  revert node. induction segments as [| segment rest IH]; intros node Hne; [done |].
  destruct rest as [| next rest'].
  - cbn. by rewrite lookup_delete_eq.
  - cbn [removeIn].
    destruct (node !! segment) as [child |] eqn:Hchild.
    + destruct child as [| | | | | fields];
        try (cbn [getIn]; rewrite Hchild; reflexivity).
      cbn [getIn]. rewrite lookup_insert_eq. by apply IH.
    + cbn [getIn]. by rewrite Hchild.
Qed.

Lemma dbGet_dbSet root path fields :
  fields <> ∅ -> dbGet (dbSet root path (JObj fields)) path = JObj fields.
Proof.
  intros Hne. unfold dbGet, dbSet.
  destruct (normalizePath path) as [| segment rest] eqn:Hpath.
  - destruct (decide (size fields = 0%nat)) as [Hsize | _]; [| reflexivity].
    by apply map_size_empty_iff in Hsize.
  - by apply getIn_setIn.
Qed.

Lemma dbGet_dbRemove root path : dbGet (dbRemove root path) path = JNull.
Proof.
  unfold dbGet, dbRemove.
  destruct (normalizePath path) as [| segment rest] eqn:Hpath.
  - reflexivity.
  - by apply getIn_removeIn.
Qed.
End Store.

(** ** The retrying reader *)

(** *** Sequencing *)

Lemma bind_inr {A B} (c : M A) (k : A -> M B) w a :
  result (c w) = inr a ->
  bind c k w =
  mkOutcome (result (k a (final (c w)))) (final (k a (final (c w))))
    (trace (c w) ++ trace (k a (final (c w)))).
Proof. intros H. unfold bind. by rewrite H. Qed.

Lemma bind_inl {A B} (c : M A) (k : A -> M B) w t :
  result (c w) = inl t ->
  bind c k w = mkOutcome (inl t) (final (c w)) (trace (c w)).
Proof. intros H. unfold bind. by rewrite H. Qed.

(** *** One failed attempt *)

(** The reset always completes: what [goOffline] or [goOnline] throws is
    swallowed, and [goOnline] is not called after a failed [goOffline]. *)
Lemma resetRealtimeDbConnection_spec w :
  let r := resetRealtimeDbConnection w in
  result r = inr tt
  /\ root (final r) = root w
  /\ fetches (final r) = fetches w
  /\ writes (final r) = writes w
  /\ trace r = match hd None (connection w) with
               | Some _ => [OpGoOffline]
               | None => [OpGoOffline; OpGoOnline]
               end.
Proof.
  unfold resetRealtimeDbConnection, tryCatch, bind, goOffline, goOnline,
    connectionCall, ret.
  cbn [result final trace root fetches writes connection].
  destruct (hd None (connection w)) as [t1 |];
    cbn [result final trace root fetches writes connection app].
  - by repeat split.
  - destruct (hd None (tl (connection w))) as [t2 |];
      cbn [result final trace root fetches writes connection app]; by repeat split.
Qed.

(** The catch block, run. *)
Lemma onReadFailure_run attempt error w :
  let o := onReadFailure attempt error w in
  result o = inr tt
  /\ root (final o) = root w
  /\ fetches (final o) = fetches w
  /\ writes (final o) = writes w
  /\ trace o =
     (if isTimeoutError error
      then match hd None (connection w) with
           | Some _ => [OpGoOffline]
           | None => [OpGoOffline; OpGoOnline]
           end
      else [])
     ++ (if (attempt <? length READ_TIMEOUTS_MS - 1)%nat
         then [OpSleep (500 * (Z.of_nat attempt + 1))]
         else []).
Proof.
  unfold onReadFailure.
  generalize (500 * (Z.of_nat attempt + 1)). intros ms.
  destruct (isTimeoutError error).
  - destruct (resetRealtimeDbConnection_spec w) as (Hok & Hroot & Hfetches & Hwrites & Htrace).
    rewrite (bind_inr _ _ w tt Hok). rewrite Htrace.
    destruct (attempt <? length READ_TIMEOUTS_MS - 1)%nat;
      cbn [sleep ret result final trace]; by repeat split.
  - unfold bind, ret, sleep. cbn [result final trace app].
    destruct (attempt <? length READ_TIMEOUTS_MS - 1)%nat;
      cbn [result final trace app]; by repeat split.
Qed.

(** The catch block always completes; it touches neither the tree nor the
    fetch and write scripts, issues no read, and resets the connection
    exactly when the error is the timeout error. *)
Lemma onReadFailure_spec attempt error w :
  let o := onReadFailure attempt error w in
  result o = inr tt
  /\ root (final o) = root w
  /\ fetches (final o) = fetches w
  /\ writes (final o) = writes w
  /\ (forall path, Forall (readPhaseOp path) (trace o))
  /\ List.filter isOnce (trace o) = []
  /\ untilRead (trace o) = trace o
  /\ resetCount (trace o) = (if isTimeoutError error then 1 else 0)%nat.
Proof.
  destruct (onReadFailure_run attempt error w) as (Hok & Hroot & Hfetches & Hwrites & Htrace).
  cbv zeta. rewrite Htrace.
  do 4 (split; [assumption |]).
  destruct (isTimeoutError error);
    destruct (attempt <? length READ_TIMEOUTS_MS - 1)%nat;
    destruct (hd None (connection w));
    (split; [intros path; repeat (apply Forall_cons; split; [exact I |]); apply Forall_nil |]);
    by repeat split.
Qed.

Lemma onReadFailure_reset_iff attempt error w :
  existsb isGoOffline (trace (onReadFailure attempt error w)) = isTimeoutError error.
Proof.
  destruct (onReadFailure_run attempt error w) as (_ & _ & _ & _ & ->).
  destruct (isTimeoutError error);
    destruct (attempt <? length READ_TIMEOUTS_MS - 1)%nat;
    destruct (hd None (connection w)); reflexivity.
Qed.

(** One turn of the loop. *)
Lemma readAttempts_cons timeoutMs later attempt lastError ref w :
  let w1 := mkWorld (root w) (tl (fetches w)) (writes w) (connection w) in
  readAttempts (timeoutMs :: later) attempt lastError ref w =
  match attemptFailure (hd promptFetch (fetches w)) timeoutMs with
  | None => mkOutcome (inr (mkSnapshot (dbGet (root w) ref))) w1 [OpOnce ref]
  | Some error =>
      let h := onReadFailure attempt error w1 in
      let r := readAttempts later (S attempt) (Some error) ref (final h) in
      mkOutcome (result r) (final r) (OpOnce ref :: trace h ++ trace r)
  end.
Proof.
  intros w1. cbn [readAttempts].
  unfold tryCatch at 1. unfold bind at 1. unfold once at 1 2 3. cbn.
  unfold withTimeout, attemptFailure. cbn [settlesAfter].
  fold w1.
  destruct (latency (hd promptFetch (fetches w)) <=? timeoutMs).
  - unfold await. cbn.
    destruct (rejection (hd promptFetch (fetches w))) as [t |]; cbn; [| reflexivity].
    rewrite (bind_inr _ _ w1 tt) by apply onReadFailure_spec. reflexivity.
  - unfold throw at 1 2 3 4. cbn.
    rewrite (bind_inr _ _ w1 tt) by apply onReadFailure_spec. reflexivity.
Qed.

Lemma untilRead_app l r :
  List.filter isOnce l = [] -> untilRead (l ++ r) = l ++ untilRead r.
Proof.
  induction l as [| op l IH]; cbn; [done |].
  destruct (isOnce op); [done |]. intros H. by rewrite IH.
Qed.

Lemma afterEachRead_app l r :
  List.filter isOnce l = [] -> afterEachRead (l ++ r) = afterEachRead r.
Proof.
  induction l as [| op l IH]; cbn; [done |].
  destruct (isOnce op); [done |]. exact IH.
Qed.


Section ReadAttempts.
Variable ref : string.

(** The loop reads and reconnects; it never writes. *)
Lemma readAttempts_frame timeouts : forall attempt lastError w,
  let o := readAttempts timeouts attempt lastError ref w in
  root (final o) = root w
  /\ writes (final o) = writes w
  /\ Forall (readPhaseOp ref) (trace o)
  /\ untilRead (trace o) = [].
Proof.
  induction timeouts as [| timeoutMs later IH]; intros attempt lastError w.
  - cbn. repeat split. constructor.
  - rewrite readAttempts_cons.
    destruct (attemptFailure _ _) as [error |]; cbn.
    + set (w1 := mkWorld _ _ _ _).
      destruct (onReadFailure_spec attempt error w1) as (_ & Hroot & _ & Hwrites & Hops & _).
      destruct (IH (S attempt) (Some error) (final (onReadFailure attempt error w1)))
        as (Hroot' & Hwrites' & Hops' & _).
      rewrite Hroot', Hroot, Hwrites', Hwrites. repeat split.
      constructor; [reflexivity |]. apply Forall_app; split; [apply Hops | apply Hops'].
    + repeat split. repeat constructor.
Qed.

(** A successful read returns the document stored at the reference. *)
Lemma readAttempts_snapshot timeouts : forall attempt lastError w snapshot,
  result (readAttempts timeouts attempt lastError ref w) = inr snapshot ->
  snapshot = mkSnapshot (dbGet (root w) ref).
Proof.
  induction timeouts as [| timeoutMs later IH]; intros attempt lastError w snapshot.
  - cbn. discriminate.
  - rewrite readAttempts_cons.
    destruct (attemptFailure _ _) as [error |]; cbn.
    + set (w1 := mkWorld _ _ _ _). intros H. apply IH in H.
      destruct (onReadFailure_spec attempt error w1) as (_ & Hroot & _).
      by rewrite Hroot in H.
    + by intros [= <-].
Qed.

(** After the [k]-th read of the trace the connection is reset exactly
    when the [k]-th attempt failed with the timeout error. *)
Lemma readAttempts_resets timeouts : forall attempt lastError w k calls,
  afterEachRead (trace (readAttempts timeouts attempt lastError ref w)) !! k = Some calls ->
  (existsb isGoOffline calls = true <->
   exists error, attemptErrors timeouts (fetches w) !! k = Some error
                 /\ isTimeoutError error = true).
Proof.
  induction timeouts as [| timeoutMs later IH]; intros attempt lastError w k calls.
  - cbn. done.
  - rewrite readAttempts_cons. cbn [attemptErrors].
    destruct (attemptFailure _ _) as [error |]; cbn [trace afterEachRead isOnce].
    + set (w1 := mkWorld _ _ _ _).
      destruct (onReadFailure_spec attempt error w1)
        as (_ & _ & Hfetches & _ & _ & Hnone & _).
      destruct (readAttempts_frame later (S attempt) (Some error)
                  (final (onReadFailure attempt error w1))) as (_ & _ & _ & Hhead).
      rewrite untilRead_app, afterEachRead_app, Hhead, app_nil_r by exact Hnone.
      destruct k as [| k]; cbn.
      * intros [= <-]. rewrite onReadFailure_reset_iff. split.
        -- intros H. by exists error.
        -- by intros (e & [= <-] & H).
      * intros H. apply IH in H. by rewrite Hfetches in H.
    + destruct k as [| k]; cbn; [| done].
      intros [= <-]. cbn. split; [done |]. by intros (e & H & _).
Qed.


(** Every attempt failed: the loop ends and throws. *)
Lemma readAttempts_exhausted timeouts : forall attempt lastError w,
  length (attemptErrors timeouts (fetches w)) = length timeouts ->
  result (readAttempts timeouts attempt lastError ref w) =
  inl (afterRetries (match last (attemptErrors timeouts (fetches w)) with
                     | Some error => Some error
                     | None => lastError
                     end)).
Proof.
  induction timeouts as [| timeoutMs later IH]; intros attempt lastError w.
  - reflexivity.
  - rewrite readAttempts_cons. cbn [attemptErrors].
    destruct (attemptFailure _ _) as [error |]; [| discriminate].
    set (w1 := mkWorld _ _ _ _). cbn [length result]. intros [= Hlen].
    destruct (onReadFailure_spec attempt error w1) as (_ & _ & Hfetches & _).
    rewrite IH; rewrite Hfetches; [| exact Hlen]. cbn [fetches w1].
    destruct (attemptErrors later (tl (fetches w))) as [| e es] eqn:Herrors;
      [reflexivity |].
    rewrite !last_cons. by destruct (last es).
Qed.

(** Some attempt succeeded: the loop returns its snapshot. *)
Lemma readAttempts_succeeds timeouts : forall attempt lastError w,
  (length (attemptErrors timeouts (fetches w)) < length timeouts)%nat ->
  result (readAttempts timeouts attempt lastError ref w) =
  inr (mkSnapshot (dbGet (root w) ref)).
Proof.
  induction timeouts as [| timeoutMs later IH]; intros attempt lastError w.
  - cbn. lia.
  - rewrite readAttempts_cons. cbn [attemptErrors].
    destruct (attemptFailure _ _) as [error |]; [| reflexivity].
    set (w1 := mkWorld _ _ _ _). cbn [length result]. intros Hlen.
    destruct (onReadFailure_spec attempt error w1) as (_ & Hroot & Hfetches & _).
    rewrite IH; [by rewrite Hroot |]. rewrite Hfetches. cbn. lia.
Qed.
End ReadAttempts.










(** ** The projection applier *)

Lemma last_default {A} (l : list A) (d e : A) : last l = Some e -> List.last l d = e.
Proof.
  induction l as [| x l IH]; [done |].
  destruct l as [| y l]; [by intros [= <-] |].
  intros H. cbn [List.last]. apply IH. exact H.
Qed.

(** The run of the applier on a non-empty batch, by the result of the
    fold. *)
Lemma handle_folded options doc sid ref events lastEvent w :
  last events = Some lastEvent ->
  let o := handle (realtimeDBInlineProjection options) events (mkContext doc sid ref) w in
  match evolveAll (Options.evolve options) events (workingState options doc) with
  | inl t => o = mkOutcome (inl t) w []
  | inr (Some fields) =>
      o = refSet ref
            (JObj (<["_metadata" :=
                      readModelMetadata sid (projectionNameOf options)
                        (schemaVersionOf options)
                        (bigintToString (streamPosition (metadata lastEvent)))]>
                     fields)) w
  | inr None => o = refRemove ref w
  end.
Proof.
  intros Hlast. destruct events as [| first rest]; [done |].
  cbn [handle realtimeDBInlineProjection document streamId projectionRef].
  rewrite (last_default _ first lastEvent Hlast).
  destruct (evolveAll _ _ _) as [t | [fields |]]; cbn [liftResult].
  - reflexivity.
  - unfold bind, ret, refSet. cbn. by destruct (hd None (writes w)).
  - unfold bind, ret, refRemove. cbn. by destruct (hd None (writes w)).
Qed.

(** What [set] leaves behind when the store accepts the write. *)
Lemma refSet_accepted ref fields w :
  hd None (writes w) = None ->
  let o := refSet ref (JObj fields) w in
  result o = inr tt
  /\ root (final o) = dbSet (root w) ref (JObj fields)
  /\ fetches (final o) = fetches w
  /\ (fields <> ∅ -> dbGet (root (final o)) ref = JObj fields).
Proof.
  intros Haccepted. unfold refSet. rewrite Haccepted. cbn [result final root fetches].
  split; [reflexivity |]. split; [reflexivity |]. split; [reflexivity |].
  apply dbGet_dbSet.
Qed.

Lemma filter_matchesEvents_nil allProjections :
  List.filter (matchesEvents []) allProjections = [].
Proof.
  induction allProjections as [| p ps IH]; [reflexivity |].
  cbn [List.filter]. unfold matchesEvents at 1.
  replace (existsb (includes []) (canHandle p)) with false; [exact IH |].
  induction (canHandle p) as [| t ts IHt]; [reflexivity | exact IHt].
Qed.

(** C1. For a non-empty batch whose fold ends in a non-null state, the
    applier calls [set] on the projection's reference with exactly that
    state and the [_metadata] envelope [{ streamId, name, schemaVersion,
    streamPosition }], the position being the last event's as a decimal
    string; every other key is the folded state's, and once the store has
    accepted the write the document at the reference is that object,
    whatever was stored before. *)
Theorem applier_persists_final_state options doc sid ref events lastEvent fields w :
  last events = Some lastEvent ->
  evolveAll (Options.evolve options) events (workingState options doc) = inr (Some fields) ->
  let definition := realtimeDBInlineProjection options in
  let envelope :=
    JObj (<["streamId" := JStr sid]>
         (<["name" := JStr (name definition)]>
         (<["schemaVersion" := JNum (default 1 (Options.schemaVersion options))]>
         (<["streamPosition" :=
             JStr (bigintToString (streamPosition (metadata lastEvent)))]> ∅)))) in
  let persisted := <["_metadata" := envelope]> fields in
  let o := handle definition events (mkContext doc sid ref) w in
  trace o = [OpSet ref (JObj persisted)]
  /\ persisted !! "_metadata" = Some envelope
  /\ (forall key, key <> "_metadata" -> persisted !! key = fields !! key)
  /\ (hd None (writes w) = None ->
      result o = inr tt
      /\ root (final o) = dbSet (root w) ref (JObj persisted)
      /\ dbGet (root (final o)) ref = JObj persisted).
Proof.
  intros Hlast Hfold definition envelope persisted o.
  pose proof (handle_folded options doc sid ref events lastEvent w Hlast) as Hrun.
  cbn zeta in Hrun. rewrite Hfold in Hrun.
  change (o = refSet ref (JObj persisted) w) in Hrun.
  split; [| split; [| split]].
  - rewrite Hrun. unfold refSet. by destruct (hd None (writes w)).
  - apply lookup_insert_eq.
  - intros key Hkey. by apply lookup_insert_ne.
  - intros Haccepted. rewrite Hrun.
    destruct (refSet_accepted ref persisted w Haccepted) as (Hok & Hroot & _ & Hget).
    split; [exact Hok |]. split; [exact Hroot |].
    apply Hget. apply insert_non_empty.
Qed.

Lemma applier_persists_final_state_witness :
  let events := [Fixtures.itemAdded "item-1" 1 0; Fixtures.itemAdded "item-2" 1 1] in
  let o := handle (realtimeDBInlineProjection Fixtures.counterOptions) events
             (mkContext JNull "stream-1" "projections/test-counter/stream-1") emptyWorld in
  exists persisted,
    trace o = [OpSet "projections/test-counter/stream-1" (JObj persisted)]
    /\ persisted !! "count" = Some (JNum 2)
    /\ dbGet (root (final o)) "projections/test-counter/stream-1" = JObj persisted.
Proof.
  intros events o.
  destruct (applier_persists_final_state Fixtures.counterOptions JNull "stream-1"
              "projections/test-counter/stream-1" events
              (Fixtures.itemAdded "item-2" 1 1) (<["count" := JNum 2]> ∅) emptyWorld)
    as (Htrace & _ & Hkeys & Hstore); [reflexivity | reflexivity |].
  eexists. split; [exact Htrace |]. split.
  - rewrite Hkeys by discriminate. reflexivity.
  - apply Hstore. reflexivity.
Defined.

(** C3, as stated, fails: the nullable fixture creates its document on
    [ItemAdded], deletes it on [ItemRemoved] and creates it again on the
    next [ItemAdded]; the fold passes through [null] and the batch ends
    with a document written. *)
Lemma null_inside_fold_is_overwritten :
  ~ deletedWheneverNull Fixtures.nullableOptions JNull "stream-1"
      "projections/test-nullable/stream-1"
      [Fixtures.itemAdded "item-1" 1 0; Fixtures.itemRemoved "item-1" 1;
       Fixtures.itemAdded "item-1" 1 2]
      emptyWorld.
Proof.
  unfold deletedWheneverNull. intros Hclaim.
  assert (Hnull : exists k,
    evolveAll (Options.evolve Fixtures.nullableOptions)
      (take (S k) [Fixtures.itemAdded "item-1" 1 0; Fixtures.itemRemoved "item-1" 1;
                   Fixtures.itemAdded "item-1" 1 2])
      (workingState Fixtures.nullableOptions JNull) = inr None).
  { exists 1%nat. reflexivity. }
  specialize (Hclaim Hnull). vm_compute in Hclaim. discriminate Hclaim.
Qed.

(** C3, amended. When the fold of a non-empty batch ends in [null], the
    applier calls [remove] on the projection's reference, whatever the
    stored document was, and once the store has accepted the call no
    document is left there. *)
Theorem applier_removes_on_null_final_state options doc sid ref events lastEvent w :
  last events = Some lastEvent ->
  evolveAll (Options.evolve options) events (workingState options doc) = inr None ->
  let o := handle (realtimeDBInlineProjection options) events (mkContext doc sid ref) w in
  trace o = [OpRemove ref]
  /\ (hd None (writes w) = None ->
      result o = inr tt
      /\ root (final o) = dbRemove (root w) ref
      /\ dbGet (root (final o)) ref = JNull).
Proof.
  intros Hlast Hfold o.
  pose proof (handle_folded options doc sid ref events lastEvent w Hlast) as Hrun.
  cbn zeta in Hrun. rewrite Hfold in Hrun. fold o in Hrun.
  split.
  - rewrite Hrun. unfold refRemove. by destruct (hd None (writes w)).
  - intros Haccepted. rewrite Hrun. unfold refRemove. rewrite Haccepted.
    cbn [result final root]. split; [reflexivity |]. split; [reflexivity |].
    apply dbGet_dbRemove.
Qed.

Lemma applier_removes_on_null_final_state_witness :
  let ref := "projections/test-nullable/stream-1" in
  let stored := JObj (<["value" := JStr "created"]> ∅) in
  let w := mkWorld (dbSet ∅ ref stored) [] [] [] in
  let o := handle Fixtures.nullableProjection [Fixtures.itemRemoved "item-1" 1]
             (mkContext stored "stream-1" ref) w in
  dbGet (root w) ref = stored
  /\ trace o = [OpRemove ref]
  /\ dbGet (root (final o)) ref = JNull.
Proof.
  intros ref stored w o.
  destruct (applier_removes_on_null_final_state Fixtures.nullableOptions stored
              "stream-1" ref [Fixtures.itemRemoved "item-1" 1]
              (Fixtures.itemRemoved "item-1" 1) w)
    as (Htrace & Hstore); [reflexivity | reflexivity |].
  split; [reflexivity |]. split; [exact Htrace |].
  apply Hstore. reflexivity.
Defined.

(** C9. With an empty batch the dispatcher matches no projection and makes
    no call on the store at all; the applier's [handle] called with an
    empty array returns at once, whatever its [evolve] would do. *)
Theorem empty_batch_is_noop allProjections sid w :
  List.filter (matchesEvents (List.map (fun e => type (event e)) [])) allProjections = []
  /\ handleInlineProjections [] allProjections sid w = mkOutcome (inr tt) w []
  /\ (forall options ctx,
        handle (realtimeDBInlineProjection options) [] ctx w = mkOutcome (inr tt) w []).
Proof.
  pose proof (filter_matchesEvents_nil allProjections) as Hnone.
  split; [exact Hnone |]. split.
  - unfold handleInlineProjections. cbn [List.map]. by rewrite Hnone.
  - reflexivity.
Qed.

Lemma rawDocumentOf_object fields :
  rawDocumentOf (JObj fields) = Some (delete "_metadata" fields).
Proof.
  unfold rawDocumentOf. cbn.
  destruct (fields !! "_metadata") eqn:Hmeta; [reflexivity |].
  by rewrite delete_id.
Qed.



(** ** The dispatcher *)

Lemma outcome_eta {A} (o : Outcome A) : o = mkOutcome (result o) (final o) (trace o).
Proof. by destruct o. Qed.

Lemma matchesEvents_spec eventTypes p :
  matchesEvents eventTypes p = true <->
  exists type, type ∈ canHandle p /\ type ∈ eventTypes.
Proof.
  unfold matchesEvents, includes. rewrite existsb_exists. split.
  - intros (t & Hin & Hex). apply existsb_exists in Hex as (t' & Hin' & Heq).
    apply String.eqb_eq in Heq. subst t'. exists t.
    split; by apply list_elem_of_In.
  - intros (t & Hin & Hin'). exists t. split; [by apply list_elem_of_In |].
    apply existsb_exists. exists t. split; [by apply list_elem_of_In |].
    apply String.eqb_refl.
Qed.

Section Dispatch.
Variables (events : list ReadEvent) (sid : string).

Lemma handleSingleProjection_read_failed p w t :
  let path := projectionPath (name p) sid in
  result (readSnapshotWithRetry path w) = inl t ->
  handleSingleProjection p events sid w =
  mkOutcome (inl t) (final (readSnapshotWithRetry path w))
    (trace (readSnapshotWithRetry path w)).
Proof. intros path H. unfold handleSingleProjection. by rewrite (bind_inl _ _ _ t). Qed.

Lemma handleSingleProjection_read_ok p w snapshot :
  let path := projectionPath (name p) sid in
  let r := readSnapshotWithRetry path w in
  result r = inr snapshot ->
  let h := handle p events (mkContext (val snapshot) sid path) (final r) in
  handleSingleProjection p events sid w =
  mkOutcome (result h) (final h) (trace r ++ trace h).
Proof.
  intros path r H h. unfold handleSingleProjection.
  by rewrite (bind_inr _ _ _ snapshot).
Qed.

(** The loop over a list split in two. *)
Lemma forEachProjection_app pre rest : forall w,
  let b := forEachProjection pre events sid w in
  forEachProjection (pre ++ rest) events sid w =
  match result b with
  | inl t => mkOutcome (inl t) (final b) (trace b)
  | inr _ =>
      let r := forEachProjection rest events sid (final b) in
      mkOutcome (result r) (final r) (trace b ++ trace r)
  end.
Proof.
  induction pre as [| p pre IH]; intros w.
  - cbn. apply outcome_eta.
  - cbn [app forEachProjection]. unfold bind.
    destruct (result (handleSingleProjection p events sid w)); cbn; [reflexivity |].
    rewrite IH. cbn zeta.
    destruct (result (forEachProjection pre events sid _)); cbn;
      [reflexivity | by rewrite app_assoc].
Qed.

(** The loop stops at the first projection that fails. *)
Lemma forEachProjection_abort pre p post w t :
  let before := forEachProjection pre events sid w in
  let failing := handleSingleProjection p events sid (final before) in
  result before = inr tt ->
  result failing = inl t ->
  forEachProjection (pre ++ p :: post) events sid w =
  mkOutcome (inl t) (final failing) (trace before ++ trace failing).
Proof.
  intros before failing Hbefore Hfailing.
  rewrite forEachProjection_app. fold before. rewrite Hbefore.
  cbn [forEachProjection]. fold failing.
  by rewrite (bind_inl _ _ _ t).
Qed.

(** *** Projections built by [realtimeDBInlineProjection] *)

Lemma handle_effects options doc ref lastEvent w :
  last events = Some lastEvent ->
  let o := handle (realtimeDBInlineProjection options) events (mkContext doc sid ref) w in
  Forall (touchesOnly [ref]) (trace o)
  /\ (result o = inr tt -> exists write, trace o = [write] /\ writeAt ref write)
  /\ (forall t, result o = inl t -> root (final o) = root w).
Proof.
  intros Hlast o.
  pose proof (handle_folded options doc sid ref events lastEvent w Hlast) as Hrun.
  cbn zeta in Hrun. fold o in Hrun.
  assert (Hin : forall value, touchesOnly [ref] (OpSet ref value)).
  { intros value path [= <-]. by apply list_elem_of_singleton. }
  assert (Hin' : touchesOnly [ref] (OpRemove ref)).
  { intros path [= <-]. by apply list_elem_of_singleton. }
  destruct (evolveAll _ _ _) as [t | [fields |]]; rewrite Hrun.
  - cbn. split; [constructor | split; [discriminate | done]].
  - unfold refSet. destruct (hd None (writes w)); cbn.
    + split; [by apply Forall_singleton | split; [discriminate | done]].
    + split; [by apply Forall_singleton | split; [| discriminate]].
      intros _. by eexists.
  - unfold refRemove. destruct (hd None (writes w)); cbn.
    + split; [by apply Forall_singleton | split; [discriminate | done]].
    + split; [by apply Forall_singleton | split; [| discriminate]].
      intros _. by eexists.
Qed.

Lemma readPhaseOp_touchesOnly path op : readPhaseOp path op -> touchesOnly [path] op.
Proof.
  destruct op; cbn; intros H q [= <-]; try done; subst;
    by apply list_elem_of_singleton.
Qed.

Lemma readSnapshotWithRetry_head path w :
  exists reads, trace (readSnapshotWithRetry path w) = OpOnce path :: reads.
Proof.
  unfold readSnapshotWithRetry, READ_TIMEOUTS_MS.
  rewrite readAttempts_cons. destruct (attemptFailure _ _); by eexists.
Qed.

Lemma handleSingleProjection_effects options w :
  let p := realtimeDBInlineProjection options in
  let path := projectionPath (name p) sid in
  let o := handleSingleProjection p events sid w in
  Forall (touchesOnly [path]) (trace o)
  /\ (events <> [] -> result o = inr tt -> projectionBlock path (trace o))
  /\ (forall t, result o = inl t -> root (final o) = root w).
Proof.
  intros p path o. subst o. cbv zeta.
  destruct (readAttempts_frame path READ_TIMEOUTS_MS 0%nat None w)
    as (Hroot & _ & Hops & _).
  destruct (readSnapshotWithRetry_head path w) as (reads & Hhead).
  fold (readSnapshotWithRetry path) in Hroot, Hops.
  assert (Hreads : Forall (touchesOnly [path]) (trace (readSnapshotWithRetry path w))).
  { eapply Forall_impl; [exact Hops |]. apply readPhaseOp_touchesOnly. }
  destruct (result (readSnapshotWithRetry path w)) as [t | snapshot] eqn:Hread.
  - rewrite (handleSingleProjection_read_failed p w t Hread).
    cbn [result final trace]. fold path.
    split; [exact Hreads | split; [discriminate | by intros t' _]].
  - rewrite (handleSingleProjection_read_ok p w snapshot Hread).
    cbn [result final trace]. fold path.
    set (r := readSnapshotWithRetry path w) in *.
    destruct (last events) as [lastEvent |] eqn:Hlast.
    + destruct (handle_effects options (val snapshot) path lastEvent (final r) Hlast)
        as (Hwrites & Hblock & Hfail).
      fold p in Hwrites, Hblock, Hfail.
      split; [| split].
      * apply Forall_app. by split.
      * intros _ Hok. destruct (Hblock Hok) as (write & Htrace & Hwrite).
        rewrite Htrace, Hhead. rewrite Hhead in Hops.
        exists reads, write. split; [reflexivity |]. split; [| exact Hwrite].
        by apply Forall_cons in Hops as [_ Hops].
      * intros t Ht. rewrite (Hfail t Ht). exact Hroot.
    + apply last_None in Hlast. split; [| split; [done |]].
      * apply Forall_app. split; [exact Hreads |].
        rewrite Hlast. cbn. constructor.
      * rewrite Hlast. cbn [p handle realtimeDBInlineProjection]. discriminate.
Qed.
End Dispatch.

Section Matching.
Variables (events : list ReadEvent) (sid : string).

Lemma touchesOnly_weaken paths paths' op :
  paths ⊆ paths' -> touchesOnly paths op -> touchesOnly paths' op.
Proof. intros Hsub H path Hop. apply Hsub. by apply H. Qed.

(** The loop over projections built by [realtimeDBInlineProjection]: it
    addresses their paths only, and a run that succeeds leaves one block
    per projection, in order. *)
Lemma forEachProjection_effects optionsList : forall w,
  let pathOf p := projectionPath (name p) sid in
  let ps := List.map realtimeDBInlineProjection optionsList in
  let o := forEachProjection ps events sid w in
  Forall (touchesOnly (List.map pathOf ps)) (trace o)
  /\ (events <> [] -> result o = inr tt ->
      exists blocks, trace o = concat blocks
        /\ Forall2 (fun p block => projectionBlock (pathOf p) block) ps blocks).
Proof.
  induction optionsList as [| options rest IH]; intros w pathOf ps o.
  - split; [constructor |]. intros _ _. exists []. split; [reflexivity | constructor].
  - subst o ps. cbn [List.map forEachProjection].
    set (p := realtimeDBInlineProjection options).
    destruct (handleSingleProjection_effects events sid options w)
      as (Hops & Hblock & _). fold p in Hops, Hblock. fold (pathOf p) in Hops, Hblock.
    assert (Hhere : Forall (touchesOnly (pathOf p :: List.map pathOf
                                (List.map realtimeDBInlineProjection rest)))
                      (trace (handleSingleProjection p events sid w))).
    { eapply Forall_impl; [exact Hops |]. intros op.
      apply touchesOnly_weaken. intros q Hq%list_elem_of_singleton.
      subst q. by left. }
    destruct (result (handleSingleProjection p events sid w)) as [t | []] eqn:Hp.
    + rewrite (bind_inl _ _ _ t Hp). cbn [result trace].
      split; [exact Hhere | discriminate].
    + rewrite (bind_inr _ _ _ tt Hp). cbn [result trace].
      destruct (IH (final (handleSingleProjection p events sid w))) as (Hops' & Hblocks').
      split.
      * apply Forall_app. split; [exact Hhere |].
        eapply Forall_impl; [exact Hops' |]. intros op.
        apply touchesOnly_weaken. intros q Hq. by right.
      * intros Hne Hok. destruct (Hblocks' Hne Hok) as (blocks & Htrace & Hall).
        exists (trace (handleSingleProjection p events sid w) :: blocks).
        split; [cbn; by rewrite Htrace |].
        constructor; [by apply Hblock | exact Hall].
Qed.
End Matching.

Lemma filter_map_factory (keep : RealtimeDBInlineProjectionDefinition -> bool) optionsList :
  List.filter keep (List.map realtimeDBInlineProjection optionsList) =
  List.map realtimeDBInlineProjection
    (List.filter (fun options => keep (realtimeDBInlineProjection options)) optionsList).
Proof.
  induction optionsList as [| options rest IH]; [reflexivity |].
  cbn. destruct (keep (realtimeDBInlineProjection options)); cbn; by rewrite IH.
Qed.

Lemma filter_matchesEvents eventTypes allProjections :
  List.filter (matchesEvents eventTypes) allProjections =
  List.filter
    (fun p => bool_decide (Exists (fun type => type ∈ eventTypes) (canHandle p)))
    allProjections.
Proof.
  apply List.filter_ext. intros p.
  destruct (matchesEvents eventTypes p) eqn:Hmatch; symmetry.
  - apply bool_decide_eq_true, Exists_exists. by apply matchesEvents_spec.
  - apply bool_decide_eq_false. intros Hshared%Exists_exists.
    apply matchesEvents_spec in Hshared. congruence.
Qed.

Lemma handleSingleProjection_readAndApplied events sid p w :
  readAndApplied events sid p w (handleSingleProjection p events sid w).
Proof.
  destruct (result (readSnapshotWithRetry (projectionPath (name p) sid) w))
    as [t | snapshot] eqn:Hread.
  - rewrite (handleSingleProjection_read_failed events sid p w t Hread).
    by apply read_failed.
  - rewrite (handleSingleProjection_read_ok events sid p w snapshot Hread).
    by eapply read_and_applied.
Qed.

Lemma forEachProjection_readAndApplied events sid projections : forall w,
  readAndAppliedInOrder events sid projections w (forEachProjection projections events sid w).
Proof.
  induction projections as [| p later IH]; intros w; [apply applied_none |].
  cbn [forEachProjection].
  pose proof (handleSingleProjection_readAndApplied events sid p w) as Hone.
  destruct (result (handleSingleProjection p events sid w)) as [t | []] eqn:Hresult.
  - rewrite (bind_inl _ _ _ t Hresult). by eapply applied_until.
  - rewrite (bind_inr _ _ _ tt Hresult). by eapply applied_then.
Qed.

(** C4. The dispatcher keeps exactly the registered projections whose
    [canHandle] shares a type with the batch, in the order of the input
    list, whatever their [handle] is.  The kept projections are read and
    applied in that order: each one's document is read by the retrying
    reader and its [handle] is called with the batch and the document read,
    from the world the one before left, until one fails; nothing else
    happens.  For projections built by [realtimeDBInlineProjection], whose
    [handle] makes no read of its own, every read and write of the run
    addresses a kept projection's document, so that no call is made on the
    document of a projection that is not kept, and a run that succeeds
    consists of one block per kept projection, in order: reads of its
    document, then one write to it. *)
Theorem dispatcher_handles_matching_projections allProjections events sid w :
  let eventTypes := List.map (fun e => type (event e)) events in
  let matching :=
    List.filter
      (fun p => bool_decide (Exists (fun type => type ∈ eventTypes) (canHandle p)))
      allProjections in
  let pathOf p := projectionPath (name p) sid in
  let o := handleInlineProjections events allProjections sid w in
  (forall p, p ∈ matching <->
             p ∈ allProjections
             /\ exists type, type ∈ canHandle p /\ type ∈ eventTypes)
  /\ readAndAppliedInOrder events sid matching w o
  /\ (forall optionsList,
        allProjections = List.map realtimeDBInlineProjection optionsList ->
        Forall (touchesOnly (List.map pathOf matching)) (trace o)
        /\ (forall p, pathOf p ∉ List.map pathOf matching ->
                      Forall (fun op => opPath op <> Some (pathOf p)) (trace o))
        /\ (result o = inr tt ->
            exists blocks, trace o = concat blocks
              /\ Forall2 (fun p block => projectionBlock (pathOf p) block)
                   matching blocks)).
Proof.
  intros eventTypes matching pathOf o.
  assert (Hmatching : List.filter (matchesEvents eventTypes) allProjections = matching)
    by apply filter_matchesEvents.
  split; [| split].
  - intros p. rewrite <- Hmatching. rewrite !list_elem_of_In, filter_In.
    by rewrite matchesEvents_spec.
  - unfold o, handleInlineProjections. fold eventTypes. rewrite Hmatching.
    apply forEachProjection_readAndApplied.
  - intros optionsList Hbuilt.
    assert (Hkept : matching =
                    List.map realtimeDBInlineProjection
                      (List.filter
                         (fun options =>
                            matchesEvents eventTypes (realtimeDBInlineProjection options))
                         optionsList))
      by (rewrite <- Hmatching, Hbuilt; apply filter_map_factory).
    assert (Hrun : o = forEachProjection matching events sid w)
      by (unfold o, handleInlineProjections; fold eventTypes; by rewrite Hmatching).
    assert (Htouched : Forall (touchesOnly (List.map pathOf matching)) (trace o)).
    { rewrite Hrun, Hkept. apply forEachProjection_effects. }
    split; [exact Htouched | split].
    + intros p Hother. eapply Forall_impl; [exact Htouched |].
      intros op Hop Hpath. apply Hother. by apply Hop.
    + destruct events as [| e later] eqn:Hevents.
      * intros _. exists [].
        assert (Hnone : matching = [])
          by (rewrite <- Hmatching; apply filter_matchesEvents_nil).
        rewrite Hrun, Hnone. split; [reflexivity | constructor].
      * rewrite <- Hevents in *. rewrite Hrun, Hkept. intros Hok.
        apply (forEachProjection_effects events sid _ w); [by rewrite Hevents | exact Hok].
Qed.

Lemma dispatcher_handles_matching_projections_witness :
  let spy (label : string) (types : list string) :=
    mkDefinition label types
      (fun _ ctx => refSet ("calls/" +:+ label) (document ctx)) in
  let events := [Fixtures.itemAdded "item-1" 1 0] in
  let o := handleInlineProjections events
             [spy "first" ["ItemAdded"]; spy "second" ["OrderConfirmed"];
              spy "third" ["ItemRemoved"; "ItemAdded"]]
             "stream-1" emptyWorld in
  trace o = [OpOnce "projections/first/stream-1"; OpSet "calls/first" JNull;
             OpOnce "projections/third/stream-1"; OpSet "calls/third" JNull]
  /\ readAndAppliedInOrder events "stream-1"
       [spy "first" ["ItemAdded"]; spy "third" ["ItemRemoved"; "ItemAdded"]]
       emptyWorld o.
Proof.
  intros spy events o.
  destruct (dispatcher_handles_matching_projections
              [spy "first" ["ItemAdded"]; spy "second" ["OrderConfirmed"];
               spy "third" ["ItemRemoved"; "ItemAdded"]]
              events "stream-1" emptyWorld) as (_ & Hrun & _).
  split; [reflexivity | exact Hrun].
Defined.

(** C6. When the projection handled after [pre] fails, the dispatch
    rejects with what it threw and stops there: the trace ends with the
    failing step, no projection of [post] is read or applied, and nothing
    is rolled back.  For a projection built by
    [realtimeDBInlineProjection] the failing step writes nothing, so the
    tree is exactly as the earlier projections left it. *)
Theorem dispatch_aborts_at_first_failure allProjections events sid w pre p post t :
  List.filter (matchesEvents (List.map (fun e => type (event e)) events)) allProjections
    = pre ++ p :: post ->
  let before := forEachProjection pre events sid w in
  let failing := handleSingleProjection p events sid (final before) in
  result before = inr tt ->
  result failing = inl t ->
  let o := handleInlineProjections events allProjections sid w in
  result o = inl t
  /\ trace o = trace before ++ trace failing
  /\ final o = final failing
  /\ (forall options, p = realtimeDBInlineProjection options ->
      root (final o) = root (final before)).
Proof.
  intros Hmatching before failing Hbefore Hfailing o.
  unfold o, handleInlineProjections. rewrite Hmatching.
  rewrite (forEachProjection_abort events sid pre p post w t Hbefore Hfailing).
  cbn [result final trace]. fold before. fold failing.
  split; [reflexivity |]. split; [reflexivity |]. split; [reflexivity |].
  intros options ->.
  by destruct (handleSingleProjection_effects events sid options (final before))
    as (_ & _ & Hroot); apply (Hroot t).
Qed.

Lemma dispatch_aborts_at_first_failure_witness :
  let failingOptions :=
    {| Options.name := Some "failing";
       Options.schemaVersion := None;
       Options.canHandle := ["ItemAdded"];
       Options.evolve := fun _ _ => inl (ErrorObj "Error" "Projection failed");
       Options.initialState := None |} in
  let events := [Fixtures.itemAdded "item-1" 1 0] in
  let o := handleInlineProjections events
             [Fixtures.counterProjection; realtimeDBInlineProjection failingOptions;
              Fixtures.nullableProjection]
             "stream-1" emptyWorld in
  result o = inl (ErrorObj "Error" "Projection failed")
  /\ trace o <> []
  /\ (exists stored, dbGet (root (final o)) "projections/test-counter/stream-1" = JObj stored)
  /\ dbGet (root (final o)) "projections/test-nullable/stream-1" = JNull.
Proof.
  intros failingOptions events o.
  destruct (dispatch_aborts_at_first_failure
              [Fixtures.counterProjection; realtimeDBInlineProjection failingOptions;
               Fixtures.nullableProjection]
              events "stream-1" emptyWorld
              [Fixtures.counterProjection] (realtimeDBInlineProjection failingOptions)
              [Fixtures.nullableProjection] (ErrorObj "Error" "Projection failed"))
    as (Hresult & Htrace & Hfinal & Hroot);
    [reflexivity | vm_compute; reflexivity | vm_compute; reflexivity |].
  split; [exact Hresult |]. split.
  - fold o in Htrace. rewrite Htrace. vm_compute. discriminate.
  - fold o in Hroot. rewrite (Hroot failingOptions eq_refl). split.
    + eexists. vm_compute. reflexivity.
    + vm_compute. reflexivity.
Defined.

(** C8. When the three attempts at reading a projection's document all
    fail, the reader throws the error of the last attempt if it is an
    [Error] instance and the synthetic "failed after retries" error
    otherwise; the dispatcher rejects with that error and stops: the
    projection is not applied and the later ones are not handled. *)
Theorem read_failure_after_retries_aborts_batch
    allProjections events sid w pre p post e1 e2 e3 :
  List.filter (matchesEvents (List.map (fun e => type (event e)) events)) allProjections
    = pre ++ p :: post ->
  let before := forEachProjection pre events sid w in
  result before = inr tt ->
  attemptErrors READ_TIMEOUTS_MS (fetches (final before)) = [e1; e2; e3] ->
  let read := readSnapshotWithRetry (projectionPath (name p) sid) (final before) in
  let thrown :=
    match e3 with
    | ErrorObj name message => ErrorObj name message
    | NonError _ => ErrorObj "Error" "Realtime DB read failed after retries."
    end in
  let o := handleInlineProjections events allProjections sid w in
  result read = inl thrown
  /\ result o = inl thrown
  /\ trace o = trace before ++ trace read
  /\ final o = final read.
Proof.
  intros Hmatching before Hbefore Herrors read thrown o.
  assert (Hread : result read = inl thrown).
  { unfold read, readSnapshotWithRetry.
    rewrite readAttempts_exhausted; rewrite Herrors; reflexivity. }
  split; [exact Hread |].
  pose proof (handleSingleProjection_read_failed events sid p (final before) thrown Hread)
    as Hfailing.
  assert (Hresult : result (handleSingleProjection p events sid (final before)) = inl thrown)
    by (by rewrite Hfailing).
  unfold o, handleInlineProjections. rewrite Hmatching.
  rewrite (forEachProjection_abort events sid pre p post w thrown Hbefore Hresult).
  fold before. rewrite Hfailing. by cbn [result final trace].
Qed.

Lemma read_failure_after_retries_aborts_batch_witness :
  let w := mkWorld ∅
             [mkFetch 6000 None;
              mkFetch 10 (Some (ErrorObj "Error" "permission denied"));
              mkFetch 10 (Some (NonError (JStr "offline")))] [] [] in
  let o := handleInlineProjections [Fixtures.itemAdded "item-1" 1 0]
             [Fixtures.counterProjection; Fixtures.nullableProjection] "stream-1" w in
  result o = inl (ErrorObj "Error" "Realtime DB read failed after retries.")
  /\ root (final o) = ∅.
Proof.
  intros w o.
  destruct (read_failure_after_retries_aborts_batch
              [Fixtures.counterProjection; Fixtures.nullableProjection]
              [Fixtures.itemAdded "item-1" 1 0] "stream-1" w
              [] Fixtures.counterProjection [Fixtures.nullableProjection]
              (ErrorObj "Error" TIMEOUT_ERROR_MESSAGE)
              (ErrorObj "Error" "permission denied")
              (NonError (JStr "offline")))
    as (_ & Hresult & _ & Hfinal);
    [reflexivity | reflexivity | reflexivity |].
  split; [exact Hresult |]. vm_compute. reflexivity.
Defined.

(** ** The append interceptor *)

(** The version the interceptor works with, from the two fields of the
    append result. *)
Lemma nextVersionOf_fields appended versionValue V :
  nextExpectedStreamVersion appended = Some versionValue /\ versionValue <> JNull
  \/ (nextExpectedStreamVersion appended = None
      \/ nextExpectedStreamVersion appended = Some JNull)
     /\ streamVersion appended = Some versionValue ->
  BigInt (Some versionValue) = inr V ->
  nextVersionOf appended = inr V.
Proof.
  intros Hfields Hconverted. unfold nextVersionOf, versionValueOf, nullish.
  assert (Hvalue : match versionValue with
                   | JBigInt v => inr v
                   | _ => BigInt (Some versionValue)
                   end = @inr Thrown Z V)
    by (by destruct versionValue).
  destruct Hfields as [[-> Hpresent] | [[-> | ->] ->]];
    [by destruct versionValue | exact Hvalue | exact Hvalue].
Qed.

(** C2. After a successful append the interceptor takes the version value
    from [nextExpectedStreamVersion] when that field is present (neither
    absent nor [null]) and from [streamVersion] otherwise, and converts it
    to a bigint [V], a bigint being taken as it is.  The event at index [i]
    of the [N] appended events gets stream position [V - N + 1 + i], with
    metadata [{ streamName, streamPosition, messageId =
    streamName-streamPosition }], and the dispatcher is run on these events
    with the stream name as stream id; the append's result is returned when
    the dispatch succeeds. *)
Theorem interceptor_assigns_positions
    (originalAppend : M AppendResult) projections sn (events : list Event) w
    appended versionValue V :
  result (originalAppend w) = inr appended ->
  nextExpectedStreamVersion appended = Some versionValue /\ versionValue <> JNull
  \/ (nextExpectedStreamVersion appended = None
      \/ nextExpectedStreamVersion appended = Some JNull)
     /\ streamVersion appended = Some versionValue ->
  BigInt (Some versionValue) = inr V ->
  let N := Z.of_nat (length events) in
  let readEvents := readEventsOf sn V events in
  let dispatched :=
    handleInlineProjections readEvents projections sn (final (originalAppend w)) in
  let o := appendToStream originalAppend projections sn events w in
  (forall v, versionValue = JBigInt v -> V = v)
  /\ length readEvents = length events
  /\ (forall i e,
        events !! i = Some e ->
        let position := V - N + 1 + Z.of_nat i in
        readEvents !! i =
        Some {| event := e;
                metadata :=
                  {| streamName := sn;
                     streamPosition := position;
                     messageId := sn +:+ "-" +:+ bigintToString position |} |})
  /\ result o = match result dispatched with
                | inl t => inl t
                | inr _ => inr appended
                end
  /\ final o = final dispatched
  /\ trace o = trace (originalAppend w) ++ trace dispatched.
Proof.
  intros Happend Hfields Hconverted N readEvents dispatched o.
  pose proof (nextVersionOf_fields appended versionValue V Hfields Hconverted) as Hversion.
  split; [| split; [| split]].
  - intros v ->. cbn in Hconverted. congruence.
  - unfold readEvents, readEventsOf. apply length_imap.
  - intros i e He position. unfold readEvents, readEventsOf.
    rewrite list_lookup_imap, He. reflexivity.
  - assert (Ho : o = mkOutcome
                       (match result dispatched with
                        | inl t => inl t
                        | inr _ => inr appended
                        end)
                       (final dispatched)
                       (trace (originalAppend w) ++ trace dispatched)).
    { unfold o, appendToStream, bind. rewrite Happend, Hversion.
      cbn [liftResult ret result final trace].
      fold readEvents. fold dispatched.
      destruct (result dispatched) as [t | []]; cbn [result final trace app];
        [reflexivity |].
      by rewrite app_nil_r. }
    by rewrite Ho.
Qed.

Lemma interceptor_assigns_positions_witness :
  let appended := mkAppendResult None (Some (JBigInt 5)) in
  let events := [mkEvent "ItemAdded" JNull; mkEvent "ItemRemoved" JNull] in
  let o := appendToStream (ret appended) [Fixtures.counterProjection] "cart-1"
             events emptyWorld in
  readEventsOf "cart-1" 5 events =
    [mkReadEvent (mkEvent "ItemAdded" JNull) (mkEventMetadata "cart-1" 4 "cart-1-4");
     mkReadEvent (mkEvent "ItemRemoved" JNull) (mkEventMetadata "cart-1" 5 "cart-1-5")]
  /\ result o = inr appended
  /\ trace o =
     trace (handleInlineProjections (readEventsOf "cart-1" 5 events)
              [Fixtures.counterProjection] "cart-1" emptyWorld).
Proof.
  intros appended events o.
  destruct (interceptor_assigns_positions (ret appended) [Fixtures.counterProjection]
              "cart-1" events emptyWorld appended (JBigInt 5) 5)
    as (_ & _ & _ & Hresult & _ & Htrace);
    [reflexivity | right; split; [by left | reflexivity] | reflexivity |].
  subst o. split; [reflexivity |]. split; [| exact Htrace].
  rewrite Hresult. vm_compute. reflexivity.
Defined.

(** ** The test read helper *)

(** The run of the test helper when the fetch resolves. *)
Lemma getProjectionState_run projectionName sid w :
  rejection (hd promptFetch (fetches w)) = None ->
  let ref := projectionPath projectionName sid in
  let data := dbGet (root w) ref in
  let w1 := mkWorld (root w) (tl (fetches w)) (writes w) (connection w) in
  getProjectionState projectionName sid w =
  if negb (truthy data) then mkOutcome (inr JNull) w1 [OpOnce ref]
  else
    match stringPositionOf data with
    | Some position =>
        match stringToBigInt position with
        | Some n =>
            mkOutcome (inr (withStreamPosition data (JBigInt n)))
              (mkWorld
                 (setIn (normalizePath ref ++ ["_metadata"; "streamPosition"])
                    (JBigInt n) (root w))
                 (tl (fetches w)) (writes w) (connection w))
              [OpOnce ref]
        | None => mkOutcome (inl (cannotConvert position)) w1 [OpOnce ref]
        end
    | None => mkOutcome (inr data) w1 [OpOnce ref]
    end.
Proof.
  intros Hresolved ref data w1.
  assert (Honce : once ref w =
                  mkOutcome
                    (inr (mkPromise (latency (hd promptFetch (fetches w)))
                            (inr (mkSnapshot data))))
                    w1 [OpOnce ref])
    by (unfold once; by rewrite Hresolved).
  unfold getProjectionState. fold ref.
  unfold bind at 1. rewrite Honce. cbn [result final trace].
  unfold bind, await. cbn [result final trace settlement val].
  destruct (negb (truthy data)); [reflexivity |].
  destruct (stringPositionOf data) as [position |]; [| reflexivity].
  unfold BigInt. destruct (stringToBigInt position) as [n |]; reflexivity.
Qed.

(** The values the helper takes for "no document": the falsy ones. *)
Lemma truthy_false value :
  truthy value = false <->
  value = JNull \/ value = JBool false \/ value = JNum 0 \/ value = JBigInt 0
  \/ value = JStr "".
Proof.
  split.
  - destruct value as [| b | n | n | text | fields]; cbn [truthy].
    + by left.
    + intros ->. right. by left.
    + intros ->%negb_false_iff%Z.eqb_eq. right. right. by left.
    + intros ->%negb_false_iff%Z.eqb_eq. right. right. right. by left.
    + intros ->%negb_false_iff%String.eqb_eq. by repeat right.
    + discriminate.
  - intros [-> | [-> | [-> | [-> | ->]]]]; reflexivity.
Qed.

Lemma withStreamPosition_not_null data position :
  truthy data = true -> withStreamPosition data position <> JNull.
Proof.
  destruct data as [| | | | | fields]; cbn [withStreamPosition];
    try (intros _; discriminate); try discriminate.
  intros _. by destruct (fields !! "_metadata") as [[| | | | | meta] |].
Qed.

(** The helper returns [null] exactly when the stored value is falsy. *)
Lemma getProjectionState_null projectionName sid w :
  rejection (hd promptFetch (fetches w)) = None ->
  result (getProjectionState projectionName sid w) = inr JNull <->
  truthy (dbGet (root w) (projectionPath projectionName sid)) = false.
Proof.
  intros Hresolved. rewrite getProjectionState_run by exact Hresolved.
  destruct (truthy (dbGet (root w) (projectionPath projectionName sid))) eqn:Htruthy;
    cbn [negb]; [| done].
  split; [| discriminate]. intros Hnull. exfalso.
  destruct (stringPositionOf _) as [position |].
  - destruct (stringToBigInt position) as [n |]; [| discriminate Hnull].
    cbn [result] in Hnull. injection Hnull as Hnull.
    by apply withStreamPosition_not_null in Hnull.
  - cbn [result] in Hnull. injection Hnull as Hnull.
    rewrite Hnull in Htruthy. discriminate Htruthy.
Qed.

(** C10, as stated, fails in its last sentence: with the number [0]
    stored at the projection's path the helper returns [null]. *)
Lemma stored_zero_reads_as_null :
  ~ nullExactlyWhenNothingStored "test-counter" "stream-1"
      (mkWorld (dbSet ∅ "projections/test-counter/stream-1" (JNum 0)) [] [] []).
Proof.
  unfold nullExactlyWhenNothingStored. intros [Hnothing _].
  assert (Hzero : JNum 0 = JNull); [| discriminate Hzero].
  apply Hnothing. reflexivity.
Qed.

(** C10, amended. The document the applier persists holds the last
    event's position [p] as the decimal string [p.toString()]; [BigInt] of
    that string is [p], so [getProjectionState] returns the same document
    with [_metadata.streamPosition] equal to the bigint [p] and every other
    field as stored.  [getProjectionState] returns [null] exactly when the
    value stored at the projection's path is falsy: nothing, [false], [0],
    [0n] or the empty string; the documents the applier writes are objects,
    so for them it returns [null] exactly when none is stored. *)
Theorem projection_state_round_trip options doc sid events lastEvent fields w :
  last events = Some lastEvent ->
  evolveAll (Options.evolve options) events (workingState options doc) = inr (Some fields) ->
  hd None (writes w) = None ->
  rejection (hd promptFetch (fetches w)) = None ->
  let definition := realtimeDBInlineProjection options in
  let ref := projectionPath (name definition) sid in
  let p := streamPosition (metadata lastEvent) in
  let envelope (position : JsValue) : Obj :=
    <["streamId" := JStr sid]>
    (<["name" := JStr (name definition)]>
    (<["schemaVersion" := JNum (default 1 (Options.schemaVersion options))]>
    (<["streamPosition" := position]> ∅))) in
  let applied := handle definition events (mkContext doc sid ref) w in
  let read := getProjectionState (name definition) sid (final applied) in
  dbGet (root (final applied)) ref =
    JObj (<["_metadata" := JObj (envelope (JStr (bigintToString p)))]> fields)
  /\ BigInt (Some (JStr (bigintToString p))) = inr p
  /\ result read = inr (JObj (<["_metadata" := JObj (envelope (JBigInt p))]> fields))
  /\ (forall projectionName sid' w',
        rejection (hd promptFetch (fetches w')) = None ->
        ownKeysOnly (projectionPath projectionName sid') = true ->
        let stored := dbGet (root w') (projectionPath projectionName sid') in
        (result (getProjectionState projectionName sid' w') = inr JNull <->
         stored = JNull \/ stored = JBool false \/ stored = JNum 0
         \/ stored = JBigInt 0 \/ stored = JStr "")
        /\ ((exists document, stored = JObj document) ->
            result (getProjectionState projectionName sid' w') <> inr JNull)).
Proof.
  intros Hlast Hfold Haccepted Hresolved definition ref p envelope applied read.
  pose proof (handle_folded options doc sid ref events lastEvent w Hlast) as Hrun.
  cbn zeta in Hrun. rewrite Hfold in Hrun.
  change (applied =
          refSet ref
            (JObj (<["_metadata" := JObj (envelope (JStr (bigintToString p)))]> fields)) w)
    in Hrun.
  destruct (refSet_accepted ref
              (<["_metadata" := JObj (envelope (JStr (bigintToString p)))]> fields)
              w Haccepted) as (_ & _ & Hfetches & Hget).
  rewrite <- Hrun in Hfetches, Hget.
  pose proof (Hget (insert_non_empty _ _ _)) as Hstored.
  pose proof (BigInt_toString p) as Hparsed.
  split; [exact Hstored |]. split; [exact Hparsed |]. split.
  - unfold read. rewrite getProjectionState_run by (by rewrite Hfetches).
    fold ref. rewrite Hstored. cbn [truthy negb stringPositionOf withStreamPosition].
    rewrite lookup_insert_eq.
    unfold envelope at 1.
    rewrite lookup_insert_ne by done. rewrite lookup_insert_ne by done.
    rewrite lookup_insert_ne by done. rewrite lookup_insert_eq.
    unfold BigInt in Hparsed.
    destruct (stringToBigInt (bigintToString p)) as [n |]; [| discriminate Hparsed].
    injection Hparsed as ->. cbn [result].
    rewrite insert_insert_eq. reflexivity.
  - intros projectionName sid' w' Hresolved' _ stored.
    rewrite getProjectionState_null by exact Hresolved'. fold stored. split.
    + apply truthy_false.
    + intros (document & ->). intros Hnull%truthy_false.
      destruct Hnull as [H | [H | [H | [H | H]]]]; discriminate H.
Qed.

Lemma projection_state_round_trip_witness :
  let w := emptyWorld in
  let applied := handle Fixtures.counterProjection
                   [Fixtures.itemAdded "item-1" 1 41; Fixtures.itemAdded "item-2" 1 42]
                   (mkContext JNull "stream-1" "projections/test-counter/stream-1") w in
  result (getProjectionState "test-counter" "stream-1" (final applied)) =
  inr (JObj (<["count" := JNum 2]>
            (<["_metadata" :=
                JObj (<["streamId" := JStr "stream-1"]>
                     (<["name" := JStr "test-counter"]>
                     (<["schemaVersion" := JNum 1]>
                     (<["streamPosition" := JBigInt 42]> ∅))))]> ∅)))
  /\ result (getProjectionState "test-counter" "stream-2" (final applied)) = inr JNull.
Proof.
  intros w applied.
  destruct (projection_state_round_trip Fixtures.counterOptions JNull "stream-1"
              [Fixtures.itemAdded "item-1" 1 41; Fixtures.itemAdded "item-2" 1 42]
              (Fixtures.itemAdded "item-2" 1 42) (<["count" := JNum 2]> ∅) w)
    as (_ & _ & Hread & Hnull);
    [reflexivity | reflexivity | reflexivity | reflexivity |].
  split.
  - exact Hread.
  - apply (Hnull "test-counter" "stream-2" (final applied)).
    + reflexivity.
    + reflexivity.
    + left. vm_compute. reflexivity.
Defined.

(** * Further properties *)

(** ** The document store, continued *)

Lemma splitSlash_nonempty s : splitSlash s <> [].
Proof.
  destruct s as [| c r]; cbn; [done |].
  destruct (Ascii.eqb c "/"); [done |]. by destruct (splitSlash r).
Qed.

Lemma splitSlash_app a b :
  splitSlash (a +:+ String "/" b) = splitSlash a ++ splitSlash b.
Proof.
  induction a as [| c a IH]; [reflexivity |].
  change (String c a +:+ String "/" b) with (String c (a +:+ String "/" b)).
  cbn [splitSlash]. rewrite IH.
  destruct (Ascii.eqb c "/"); [reflexivity |].
  pose proof (splitSlash_nonempty a) as Hne.
  by destruct (splitSlash a).
Qed.

Lemma splitSlash_segment s : hasSlash s = false -> splitSlash s = [s].
Proof.
  induction s as [| c r IH]; cbn; [done |].
  intros [Hc Hr]%orb_false_elim. rewrite Hc, IH by exact Hr. reflexivity.
Qed.

Lemma splitSlash_no_slash s : Forall (fun segment => hasSlash segment = false) (splitSlash s).
Proof.
  induction s as [| c r IH]; cbn; [by repeat constructor |].
  destruct (Ascii.eqb c "/") eqn:Hc; [by constructor |].
  pose proof (splitSlash_nonempty r) as Hne.
  destruct (splitSlash r) as [| h t]; [done |].
  apply Forall_cons in IH as [Hh Ht]. constructor; [| exact Ht].
  cbn. by rewrite Hc, Hh.
Qed.

Lemma normalizePath_segment a : isSegment a = true -> normalizePath a = [a].
Proof.
  unfold isSegment, normalizePath. intros [Hne Hslash]%andb_prop.
  apply negb_true_iff in Hslash. rewrite splitSlash_segment by exact Hslash.
  cbn. by rewrite Hne.
Qed.

Lemma normalizePath_app a b :
  normalizePath (a +:+ "/" +:+ b) = normalizePath a ++ normalizePath b.
Proof.
  unfold normalizePath.
  change (a +:+ "/" +:+ b) with (a +:+ String "/" b).
  by rewrite splitSlash_app, List.filter_app.
Qed.

(** X1. [normalizePath] drops empty segments only: every segment it
    returns is non-empty and free of slashes, a slash between two paths
    concatenates their segments (so doubled, leading and trailing slashes
    are ignored), and a non-empty string without slash is one segment. *)
Theorem normalizePath_segments a b :
  Forall (fun segment => isSegment segment = true) (normalizePath a)
  /\ normalizePath (a +:+ "/" +:+ b) = normalizePath a ++ normalizePath b
  /\ normalizePath ("/" +:+ a) = normalizePath a
  /\ normalizePath (a +:+ "/") = normalizePath a
  /\ (isSegment a = true -> normalizePath a = [a]).
Proof.
  split; [| split; [| split; [| split]]].
  - unfold normalizePath. apply Forall_forall. intros segment Hin.
    apply list_elem_of_In, filter_In in Hin as [Hin Hne].
    unfold isSegment. rewrite Hne. cbn.
    pose proof (splitSlash_no_slash a) as Hall.
    rewrite Forall_forall in Hall. rewrite (Hall segment); [done |].
    by apply list_elem_of_In.
  - apply normalizePath_app.
  - reflexivity.
  - unfold normalizePath.
    change (a +:+ "/") with (a +:+ String "/" "").
    rewrite splitSlash_app, List.filter_app. cbn. by rewrite app_nil_r.
  - apply normalizePath_segment.
Qed.

Lemma normalizePath_segments_witness :
  normalizePath "stream-1" = ["stream-1"].
Proof.
  destruct (normalizePath_segments "stream-1" "") as (_ & _ & _ & _ & Hone).
  apply Hone. reflexivity.
Defined.

Lemma normalizePath_projectionPath projectionName sid :
  normalizePath (projectionPath projectionName sid) =
  "projections" :: normalizePath projectionName ++ normalizePath sid.
Proof.
  unfold projectionPath.
  change ("projections/" +:+ projectionName +:+ "/" +:+ sid)
    with ("projections" +:+ String "/" (projectionName +:+ String "/" sid)).
  unfold normalizePath. rewrite !splitSlash_app, !List.filter_app. reflexivity.
Qed.

Lemma getIn_null segments value :
  segments <> [] -> isRecord value = false -> getIn segments value = JNull.
Proof. destruct segments; [done |]. by destruct value. Qed.

Lemma getIn_empty segments : segments <> [] -> getIn segments (JObj ∅) = JNull.
Proof. destruct segments; [done |]. intros _. cbn. by rewrite lookup_empty. Qed.

Lemma diverges_nonempty a b : diverges a b = true -> a <> [] /\ b <> [].
Proof. destruct a, b; cbn; try discriminate. done. Qed.

Lemma setIn_cons segment next rest value node :
  setIn (segment :: next :: rest) value node =
  <[segment := JObj (setIn (next :: rest) value
                       (match node !! segment with
                        | Some (JObj fields) => fields
                        | _ => ∅
                        end))]> node.
Proof. reflexivity. Qed.

Lemma getIn_setIn_diverges a : forall b value node,
  diverges a b = true ->
  getIn b (JObj (setIn a value node)) = getIn b (JObj node).
Proof.
  induction a as [| x a IH]; intros b value node Hdiv; [done |].
  destruct b as [| y b]; [done |]. cbn [diverges] in Hdiv.
  destruct (String.eqb_spec x y) as [-> | Hne].
  - destruct a as [| next a]; [by destruct b |].
    rewrite setIn_cons. cbn [getIn]. rewrite lookup_insert_eq.
    rewrite IH by exact Hdiv.
    destruct (diverges_nonempty _ _ Hdiv) as [_ Hb].
    destruct (node !! y) as [[| | | | | fields] |];
      try reflexivity; by rewrite getIn_empty, ?getIn_null.
  - destruct a as [| next a].
    + cbn. by rewrite lookup_insert_ne.
    + rewrite setIn_cons. cbn [getIn]. by rewrite lookup_insert_ne.
Qed.

Lemma removeIn_cons segment next rest node :
  removeIn (segment :: next :: rest) node =
  match node !! segment with
  | Some (JObj fields) => <[segment := JObj (removeIn (next :: rest) fields)]> node
  | _ => node
  end.
Proof. reflexivity. Qed.

Lemma getIn_removeIn_diverges a : forall b node,
  diverges a b = true ->
  getIn b (JObj (removeIn a node)) = getIn b (JObj node).
Proof.
  induction a as [| x a IH]; intros b node Hdiv; [done |].
  destruct b as [| y b]; [done |]. cbn [diverges] in Hdiv.
  destruct (String.eqb_spec x y) as [-> | Hne].
  - destruct a as [| next a]; [by destruct b |].
    rewrite removeIn_cons.
    destruct (node !! y) as [[| | | | | fields] |] eqn:Hy; try reflexivity.
    cbn [getIn]. rewrite lookup_insert_eq, Hy. by apply IH.
  - destruct a as [| next a].
    + cbn. by rewrite lookup_delete_ne.
    + rewrite removeIn_cons.
      destruct (node !! x) as [[| | | | | fields] |] eqn:Hx; try reflexivity.
      cbn [getIn]. by rewrite lookup_insert_ne.
Qed.

(** X2. Along a path of own keys, reading after writing gives back the
    value written, whatever it is, as soon as the path has a segment; at the
    root only a non-empty record is kept, anything else empties the tree. *)
Theorem get_after_set root path value :
  ownKeysOnly path = true ->
  (normalizePath path <> [] -> dbGet (dbSet root path value) path = value)
  /\ (normalizePath path = [] ->
      dbGet (dbSet root path value) path =
      match value with
      | JObj fields => if decide (size fields = 0%nat) then JNull else value
      | _ => JNull
      end).
Proof.
  intros _. unfold dbGet, dbSet. split.
  - destruct (normalizePath path) as [| segment rest]; [done |].
    intros _. by apply getIn_setIn.
  - intros ->. by destruct value.
Qed.

Lemma get_after_set_witness :
  dbGet (dbSet ∅ "projections/test-counter/stream-1" (JNum 7))
    "projections/test-counter/stream-1" = JNum 7.
Proof.
  destruct (get_after_set ∅ "projections/test-counter/stream-1" (JNum 7)) as [Hget _];
    [reflexivity |].
  apply Hget. vm_compute. discriminate.
Defined.

Lemma getIn_app_null segments more : forall value,
  getIn segments value = JNull -> getIn (segments ++ more) value = JNull.
Proof.
  induction segments as [| s segments IH]; intros value.
  - cbn. intros ->. by destruct more.
  - cbn. destruct value as [| | | | | fields]; try done.
    destruct (fields !! s) as [child |]; [apply IH | done].
Qed.

Lemma dbGet_removed_below root path below :
  dbGet (dbRemove root path) (path +:+ "/" +:+ below) = JNull.
Proof.
  unfold dbGet, dbRemove. rewrite normalizePath_app.
  destruct (normalizePath path) as [| segment rest] eqn:Hpath.
  - cbn [app]. destruct (normalizePath below) as [| s l]; [reflexivity |].
    cbn. by rewrite lookup_empty.
  - cbn [app]. change (segment :: rest ++ normalizePath below)
      with ((segment :: rest) ++ normalizePath below).
    apply getIn_app_null. by apply getIn_removeIn.
Qed.

(** X3. Along paths of own keys, after [remove] nothing is read at the
    path, and nothing below it either. *)
Theorem get_after_remove root path below :
  ownKeysOnly path = true ->
  ownKeysOnly below = true ->
  dbGet (dbRemove root path) path = JNull
  /\ dbGet (dbRemove root path) (path +:+ "/" +:+ below) = JNull.
Proof. intros _ _. split; [apply dbGet_dbRemove | apply dbGet_removed_below]. Qed.

Lemma get_after_remove_witness :
  let root := dbSet ∅ "projections/test-counter/stream-1"
                (JObj (<["count" := JNum 2]> ∅)) in
  dbGet root "projections/test-counter/stream-1/count" = JNum 2
  /\ dbGet (dbRemove root "projections/test-counter/stream-1")
       "projections/test-counter/stream-1/count" = JNull.
Proof.
  intros root. split; [reflexivity |].
  destruct (get_after_remove root "projections/test-counter/stream-1" "count")
    as [_ Hbelow]; [reflexivity | reflexivity |].
  exact Hbelow.
Defined.

Lemma setIn_setIn segments : forall v1 v2 node,
  setIn segments v2 (setIn segments v1 node) = setIn segments v2 node.
Proof.
  induction segments as [| segment rest IH]; intros v1 v2 node; [done |].
  destruct rest as [| next rest].
  - cbn. apply insert_insert_eq.
  - rewrite !setIn_cons. rewrite lookup_insert_eq, insert_insert_eq. by rewrite IH.
Qed.

(** X4. The last write wins: along a path of own keys, writing twice
    leaves the tree that the second write alone would leave. *)
Theorem set_overwrites root path v1 v2 :
  ownKeysOnly path = true ->
  dbSet (dbSet root path v1) path v2 = dbSet root path v2.
Proof.
  intros _. unfold dbSet. destruct (normalizePath path) as [| segment rest]; [done |].
  apply setIn_setIn.
Qed.

Lemma set_overwrites_witness :
  dbSet (dbSet ∅ "projections/test-counter/stream-1" (JObj (<["count" := JNum 1]> ∅)))
    "projections/test-counter/stream-1" (JNum 7) =
  dbSet ∅ "projections/test-counter/stream-1" (JNum 7).
Proof.
  apply (set_overwrites ∅ "projections/test-counter/stream-1"). reflexivity.
Defined.

Lemma store_frame_set root path other value :
  diverges (normalizePath path) (normalizePath other) = true ->
  dbGet (dbSet root path value) other = dbGet root other.
Proof.
  intros Hdiv. unfold dbGet, dbSet.
  destruct (normalizePath path) as [| x a]; [done |].
  destruct (normalizePath other) as [| y b]; [done |].
  by apply getIn_setIn_diverges.
Qed.

Lemma store_frame_remove root path other :
  diverges (normalizePath path) (normalizePath other) = true ->
  dbGet (dbRemove root path) other = dbGet root other.
Proof.
  intros Hdiv. unfold dbGet, dbRemove.
  destruct (normalizePath path) as [| x a]; [done |].
  destruct (normalizePath other) as [| y b]; [done |].
  by apply getIn_removeIn_diverges.
Qed.

(** X5. A write or a removal at one path leaves what is read at another
    path unchanged when both are paths of own keys and the two part ways,
    that is when neither leads through the other. *)
Theorem store_frame root path other value :
  ownKeysOnly path = true ->
  ownKeysOnly other = true ->
  diverges (normalizePath path) (normalizePath other) = true ->
  dbGet (dbSet root path value) other = dbGet root other
  /\ dbGet (dbRemove root path) other = dbGet root other.
Proof.
  intros _ _ Hdiv. split; [by apply store_frame_set | by apply store_frame_remove].
Qed.

Lemma store_frame_witness :
  let root := dbSet ∅ "projections/test-counter/stream-2" (JNum 1) in
  dbGet (dbSet root "projections/test-counter/stream-1" (JNum 7))
    "projections/test-counter/stream-2" = JNum 1.
Proof.
  intros root.
  destruct (store_frame root "projections/test-counter/stream-1"
              "projections/test-counter/stream-2" (JNum 7)) as [Hset _];
    [reflexivity | reflexivity | vm_compute; reflexivity |].
  rewrite Hset. vm_compute. reflexivity.
Defined.

(** ** The retrying reader, continued *)

Lemma sleepsOf_app l r : sleepsOf (l ++ r) = sleepsOf l ++ sleepsOf r.
Proof. unfold sleepsOf. apply omap_app. Qed.

Lemma onReadFailure_sleeps attempt error w :
  sleepsOf (trace (onReadFailure attempt error w)) =
  if (attempt <? length READ_TIMEOUTS_MS - 1)%nat
  then [500 * (Z.of_nat attempt + 1)]
  else [].
Proof.
  destruct (onReadFailure_run attempt error w) as (_ & _ & _ & _ & ->).
  rewrite sleepsOf_app.
  destruct (isTimeoutError error); destruct (hd None (connection w));
    destruct (attempt <? length READ_TIMEOUTS_MS - 1)%nat; reflexivity.
Qed.

(** The delays of the loop started at [attempt]: one per failed attempt
    that is not the last of the policy. *)
Lemma readAttempts_sleeps ref timeouts : forall attempt lastError w,
  sleepsOf (trace (readAttempts timeouts attempt lastError ref w)) =
  flat_map (fun k => if (k <? length READ_TIMEOUTS_MS - 1)%nat
                     then [500 * (Z.of_nat k + 1)] else [])
    (seq attempt (length (attemptErrors timeouts (fetches w)))).
Proof.
  induction timeouts as [| timeoutMs later IH]; intros attempt lastError w.
  - reflexivity.
  - rewrite readAttempts_cons. cbn [attemptErrors].
    destruct (attemptFailure _ _) as [error |]; [| reflexivity].
    set (w1 := mkWorld _ _ _ _). cbn [trace length seq flat_map].
    change (OpOnce ref :: ?l) with ([OpOnce ref] ++ l).
    rewrite !sleepsOf_app, onReadFailure_sleeps, IH.
    destruct (onReadFailure_spec attempt error w1) as (_ & _ & -> & _).
    reflexivity.
Qed.

Lemma readAttempts_fetches ref timeouts : forall attempt lastError w,
  fetches (final (readAttempts timeouts attempt lastError ref w)) =
  drop (Nat.min (length timeouts) (S (length (attemptErrors timeouts (fetches w)))))
    (fetches w).
Proof.
  induction timeouts as [| timeoutMs later IH]; intros attempt lastError w.
  - reflexivity.
  - rewrite readAttempts_cons. cbn [attemptErrors].
    destruct (attemptFailure _ _) as [error |].
    + set (w1 := mkWorld _ _ _ _). cbn [final length Nat.min].
      rewrite IH.
      destruct (onReadFailure_spec attempt error w1) as (_ & _ & -> & _).
      cbn [fetches w1]. generalize (Nat.min (length later)
        (S (length (attemptErrors later (tl (fetches w)))))).
      intros n. destruct (fetches w); cbn [tl]; [by rewrite !drop_nil | reflexivity].
    + cbn [final fetches length].
      assert (Nat.min (S (length later)) 1 = 1%nat) as -> by lia.
      destruct (fetches w); reflexivity.
Qed.

Lemma readAttempts_onces ref timeouts : forall attempt lastError w,
  List.filter isOnce (trace (readAttempts timeouts attempt lastError ref w)) =
  replicate (Nat.min (length timeouts) (S (length (attemptErrors timeouts (fetches w)))))
    (OpOnce ref).
Proof.
  induction timeouts as [| timeoutMs later IH]; intros attempt lastError w;
    [reflexivity |].
  rewrite readAttempts_cons. cbn [attemptErrors].
  destruct (attemptFailure _ _) as [error |].
  - set (w1 := mkWorld _ _ _ _). cbn [trace length Nat.min List.filter isOnce replicate].
    rewrite List.filter_app.
    destruct (onReadFailure_spec attempt error w1) as (_ & _ & Hfetches & _ & _ & -> & _).
    cbn [app]. rewrite IH, Hfetches. reflexivity.
  - cbn. by destruct (length later).
Qed.

Lemma attemptErrors_length timeouts : forall fetches,
  (length (attemptErrors timeouts fetches) <= length timeouts)%nat.
Proof.
  induction timeouts as [| timeoutMs later IH]; intros fs; cbn; [lia |].
  destruct (attemptFailure _ _); cbn; [| lia]. specialize (IH (tl fs)). lia.
Qed.

(** X6. The reader only reads: it leaves the stored tree and the pending
    write outcomes as they are, makes no [set] or [remove] call, and reads
    no other path than the reference's; it consumes one fetch per attempt
    made. *)
Theorem reader_only_reads ref w :
  let o := readSnapshotWithRetry ref w in
  let attempts := Nat.min 3 (S (length (attemptErrors READ_TIMEOUTS_MS (fetches w)))) in
  root (final o) = root w
  /\ writes (final o) = writes w
  /\ Forall (readPhaseOp ref) (trace o)
  /\ List.filter isOnce (trace o) = replicate attempts (OpOnce ref)
  /\ fetches (final o) = drop attempts (fetches w).
Proof.
  intros o attempts.
  destruct (readAttempts_frame ref READ_TIMEOUTS_MS 0%nat None w) as (Hroot & Hwrites & Hops & _).
  split; [exact Hroot |]. split; [exact Hwrites |]. split; [exact Hops |]. split.
  - apply (readAttempts_onces ref READ_TIMEOUTS_MS).
  - apply (readAttempts_fetches ref READ_TIMEOUTS_MS).
Qed.

(** X7. Between attempts the reader waits 500 ms times the number of the
    attempt that failed, and it does not wait after the last attempt: the
    delays of a run are a prefix of 500, 1000, as long as the number of
    failed attempts. *)
Theorem reader_backoff_schedule ref w :
  sleepsOf (trace (readSnapshotWithRetry ref w)) =
  take (length (attemptErrors READ_TIMEOUTS_MS (fetches w))) [500; 1000].
Proof.
  unfold readSnapshotWithRetry. rewrite readAttempts_sleeps.
  pose proof (attemptErrors_length READ_TIMEOUTS_MS (fetches w)) as Hle.
  destruct (length (attemptErrors READ_TIMEOUTS_MS (fetches w))) as [| [| [| [| n]]]];
    try reflexivity.
  cbn in Hle. lia.
Qed.

(** X8. The read succeeds exactly when one of the three attempts does,
    and it then returns the document stored at the reference; otherwise it
    fails after exactly three reads. *)
Theorem reader_succeeds_iff_some_attempt ref w :
  let o := readSnapshotWithRetry ref w in
  let failures := length (attemptErrors READ_TIMEOUTS_MS (fetches w)) in
  ((failures < 3)%nat <-> result o = inr (mkSnapshot (dbGet (root w) ref)))
  /\ ((failures = 3)%nat <-> exists t, result o = inl t)
  /\ length (List.filter isOnce (trace o)) = Nat.min 3 (S failures).
Proof.
  intros o failures.
  pose proof (attemptErrors_length READ_TIMEOUTS_MS (fetches w)) as Hle.
  change (length READ_TIMEOUTS_MS) with 3%nat in Hle. fold failures in Hle.
  assert (Hok : (failures < 3)%nat -> result o = inr (mkSnapshot (dbGet (root w) ref))).
  { intros Hlt. by apply readAttempts_succeeds. }
  assert (Hko : failures = 3%nat -> exists t, result o = inl t).
  { intros Hall. eexists. by apply readAttempts_exhausted. }
  split; [| split].
  - split; [exact Hok |]. intros Hres.
    destruct (decide (failures = 3%nat)) as [Hall | Hnot]; [| lia].
    destruct (Hko Hall) as [t Ht]. congruence.
  - split; [exact Hko |]. intros [t Ht].
    destruct (decide (failures < 3)%nat) as [Hlt | Hnot]; [| lia].
    rewrite (Hok Hlt) in Ht. discriminate.
  - unfold o, readSnapshotWithRetry. rewrite readAttempts_onces.
    apply length_replicate.
Qed.

Lemma reader_succeeds_iff_some_attempt_witness :
  let ref := "projections/test-counter/stream-1" in
  let w := mkWorld (dbSet ∅ ref (JNum 4))
             [mkFetch 7000 None; mkFetch 30 None] [] [] in
  result (readSnapshotWithRetry ref w) = inr (mkSnapshot (JNum 4)).
Proof.
  intros ref w.
  destruct (reader_succeeds_iff_some_attempt ref w) as ([Hok _] & _).
  transitivity (@inr Thrown _ (mkSnapshot (dbGet (root w) ref))); [| reflexivity].
  apply Hok. cbn. lia.
Defined.

(** ** The projection applier, continued *)

Lemma evolveAll_app evolve es1 es2 : forall state,
  evolveAll evolve (es1 ++ es2) state =
  match evolveAll evolve es1 state with
  | inl t => inl t
  | inr state' => evolveAll evolve es2 state'
  end.
Proof.
  induction es1 as [| e es1 IH]; intros state; [reflexivity |].
  cbn. destruct (evolve state e); [reflexivity | apply IH].
Qed.

Lemma last_app_cons {A} (l : list A) (x : A) (r : list A) :
  exists y, last (l ++ x :: r) = Some y.
Proof.
  destruct (last (l ++ x :: r)) as [y |] eqn:H; [by eexists |].
  apply last_None in H. by destruct l.
Qed.

(** X9. When [evolve] throws on some event of the batch, the applier
    rejects with the thrown value and makes no call on the store: nothing
    is written or removed, and the events after the failing one play no
    role. *)
Theorem evolve_failure_aborts_applier options doc sid ref before failing after state t w :
  evolveAll (Options.evolve options) before (workingState options doc) = inr state ->
  Options.evolve options state failing = inl t ->
  handle (realtimeDBInlineProjection options) (before ++ failing :: after)
    (mkContext doc sid ref) w = mkOutcome (inl t) w [].
Proof.
  intros Hbefore Hfailing.
  destruct (last_app_cons before failing after) as [lastEvent Hlast].
  pose proof (handle_folded options doc sid ref _ lastEvent w Hlast) as Hrun.
  cbn zeta in Hrun. rewrite evolveAll_app, Hbefore in Hrun.
  cbn [evolveAll] in Hrun. by rewrite Hfailing in Hrun.
Qed.

Lemma evolve_failure_aborts_applier_witness :
  let stored := JObj (<["count" := JNum 1]> ∅) in
  let w := mkWorld (dbSet ∅ "projections/p/s" stored) [] [] [] in
  let options :=
    {| Options.name := Some "p";
       Options.schemaVersion := None;
       Options.canHandle := ["ItemAdded"];
       Options.evolve := fun state e =>
         if String.eqb (type (event e)) "ItemRemoved"
         then inl (ErrorObj "Error" "Projection failed")
         else inr state;
       Options.initialState := None |} in
  handle (realtimeDBInlineProjection options)
    [Fixtures.itemAdded "item-1" 1 0; Fixtures.itemRemoved "item-1" 1;
     Fixtures.itemAdded "item-1" 1 2]
    (mkContext stored "s" "projections/p/s") w =
  mkOutcome (inl (ErrorObj "Error" "Projection failed")) w [].
Proof.
  intros stored w options.
  apply (evolve_failure_aborts_applier options stored "s" "projections/p/s"
           [Fixtures.itemAdded "item-1" 1 0] (Fixtures.itemRemoved "item-1" 1)
           [Fixtures.itemAdded "item-1" 1 2] (Some (<["count" := JNum 1]> ∅)));
    reflexivity.
Defined.

(** X10. When the store rejects the write, the applier rejects with the
    store's error after that single call, and the stored tree is as
    before. *)
Theorem rejected_write_propagates options doc sid ref events lastEvent state t w :
  last events = Some lastEvent ->
  evolveAll (Options.evolve options) events (workingState options doc) = inr state ->
  hd None (writes w) = Some t ->
  let o := handle (realtimeDBInlineProjection options) events (mkContext doc sid ref) w in
  result o = inl t
  /\ root (final o) = root w
  /\ length (trace o) = 1%nat
  /\ Forall (writeAt ref) (trace o).
Proof.
  intros Hlast Hfold Hrejected o.
  pose proof (handle_folded options doc sid ref events lastEvent w Hlast) as Hrun.
  cbn zeta in Hrun. rewrite Hfold in Hrun. fold o in Hrun.
  destruct state as [fields |]; rewrite Hrun; unfold refSet, refRemove;
    rewrite Hrejected; cbn [result final root trace];
    (split; [reflexivity |]; split; [reflexivity |]; split; [reflexivity |]);
    by apply Forall_singleton.
Qed.

Lemma rejected_write_propagates_witness :
  let w := mkWorld ∅ [] [Some (ErrorObj "Error" "PERMISSION_DENIED")] [] in
  let o := handle Fixtures.counterProjection [Fixtures.itemAdded "item-1" 1 0]
             (mkContext JNull "stream-1" "projections/test-counter/stream-1") w in
  result o = inl (ErrorObj "Error" "PERMISSION_DENIED") /\ root (final o) = ∅.
Proof.
  intros w o.
  destruct (rejected_write_propagates Fixtures.counterOptions JNull "stream-1"
              "projections/test-counter/stream-1" [Fixtures.itemAdded "item-1" 1 0]
              (Fixtures.itemAdded "item-1" 1 0) (Some (<["count" := JNum 1]> ∅))
              (ErrorObj "Error" "PERMISSION_DENIED") w)
    as (Hresult & Hroot & _); [reflexivity | reflexivity | reflexivity |].
  by split.
Defined.

Lemma workingState_persisted options envelope fields :
  workingState options (JObj (<["_metadata" := envelope]> fields)) =
  Some (delete "_metadata" fields).
Proof.
  unfold workingState. rewrite rawDocumentOf_object, delete_insert_eq.
  by destruct (Options.initialState options).
Qed.



(** X12. Applying a batch in two calls gives the same document as applying
    it in one, when the first part ends in a state without a [_metadata]
    field of its own and the store accepts both writes: the second call
    reads what the first one wrote and carries on from there.  When the
    batch ends in [null] the reference is to be a path of own keys, along
    which a removed document reads as [null]. *)
Theorem batch_split_composes options doc sid ref es1 es2 last1 last2 mid state w :
  last es1 = Some last1 ->
  last es2 = Some last2 ->
  evolveAll (Options.evolve options) es1 (workingState options doc) = inr (Some mid) ->
  mid !! "_metadata" = None ->
  evolveAll (Options.evolve options) es2 (Some mid) = inr state ->
  hd None (writes w) = None ->
  hd None (tl (writes w)) = None ->
  (state = None -> ownKeysOnly ref = true) ->
  let definition := realtimeDBInlineProjection options in
  let first := handle definition es1 (mkContext doc sid ref) w in
  let second := handle definition es2
                  (mkContext (dbGet (root (final first)) ref) sid ref) (final first) in
  let whole := handle definition (es1 ++ es2) (mkContext doc sid ref) w in
  result first = inr tt
  /\ result second = inr tt
  /\ result whole = inr tt
  /\ dbGet (root (final second)) ref = dbGet (root (final whole)) ref.
Proof.
  intros Hlast1 Hlast2 Hfold1 Hfree Hfold2 Hw1 Hw2 _ definition first second whole.
  pose proof (handle_folded options doc sid ref es1 last1 w Hlast1) as Hfirst.
  cbn zeta in Hfirst. rewrite Hfold1 in Hfirst. fold definition first in Hfirst.
  set (envelope1 := readModelMetadata _ _ _ _) in Hfirst.
  destruct (refSet_accepted ref (<["_metadata" := envelope1]> mid) w Hw1)
    as (Hok1 & _ & _ & Hget1).
  rewrite <- Hfirst in Hok1, Hget1.
  specialize (Hget1 (insert_non_empty _ _ _)).
  assert (Hwrites1 : writes (final first) = tl (writes w)).
  { rewrite Hfirst. unfold refSet. by rewrite Hw1. }
  assert (Hlast : last (es1 ++ es2) = Some last2).
  { destruct es2 as [| e es2]; [done |]. by rewrite last_app, Hlast2. }
  pose proof (handle_folded options doc sid ref (es1 ++ es2) last2 w Hlast) as Hwhole.
  cbn zeta in Hwhole. rewrite evolveAll_app, Hfold1, Hfold2 in Hwhole.
  fold definition whole in Hwhole.
  pose proof (handle_folded options (dbGet (root (final first)) ref) sid ref es2 last2
                (final first) Hlast2) as Hsecond.
  cbn zeta in Hsecond. fold definition second in Hsecond.
  rewrite Hget1, workingState_persisted, delete_id, Hfold2 in Hsecond by exact Hfree.
  split; [exact Hok1 |].
  destruct state as [fields |].
  - set (envelope2 := readModelMetadata _ _ _ _) in Hsecond, Hwhole.
    destruct (refSet_accepted ref (<["_metadata" := envelope2]> fields) w Hw1)
      as (Hok & _ & _ & Hget).
    destruct (refSet_accepted ref (<["_metadata" := envelope2]> fields) (final first))
      as (Hok' & _ & _ & Hget'); [by rewrite Hwrites1 |].
    rewrite <- Hwhole in Hok, Hget. rewrite <- Hsecond in Hok', Hget'.
    split; [exact Hok' |]. split; [exact Hok |].
    rewrite Hget, Hget' by apply insert_non_empty. reflexivity.
  - rewrite Hsecond, Hwhole. unfold refRemove. rewrite Hwrites1, Hw1, Hw2.
    cbn [result final root]. split; [reflexivity |]. split; [reflexivity |].
    by rewrite !dbGet_dbRemove.
Qed.

Lemma batch_split_composes_witness :
  let ref := "projections/test-counter/stream-1" in
  let first := handle Fixtures.counterProjection [Fixtures.itemAdded "item-1" 1 0]
                 (mkContext JNull "stream-1" ref) emptyWorld in
  let second := handle Fixtures.counterProjection [Fixtures.itemAdded "item-2" 1 1]
                  (mkContext (dbGet (root (final first)) ref) "stream-1" ref)
                  (final first) in
  let whole := handle Fixtures.counterProjection
                 [Fixtures.itemAdded "item-1" 1 0; Fixtures.itemAdded "item-2" 1 1]
                 (mkContext JNull "stream-1" ref) emptyWorld in
  dbGet (root (final second)) ref = dbGet (root (final whole)) ref.
Proof.
  intros ref first second whole.
  destruct (batch_split_composes Fixtures.counterOptions JNull "stream-1" ref
              [Fixtures.itemAdded "item-1" 1 0] [Fixtures.itemAdded "item-2" 1 1]
              (Fixtures.itemAdded "item-1" 1 0) (Fixtures.itemAdded "item-2" 1 1)
              (<["count" := JNum 1]> ∅) (Some (<["count" := JNum 2]> ∅)) emptyWorld)
    as (_ & _ & _ & Hsame);
    [reflexivity | reflexivity | reflexivity | reflexivity | reflexivity
    | reflexivity | reflexivity | discriminate |].
  exact Hsame.
Defined.

(** X13. Whatever the batch, the document and the world, the applier makes
    at most one call on the store, a [set] or a [remove] on its own
    reference; it never reads and never touches the connection. *)
Theorem applier_makes_one_write_at_most options doc sid ref events w :
  let o := handle (realtimeDBInlineProjection options) events (mkContext doc sid ref) w in
  (length (trace o) <= 1)%nat
  /\ Forall (writeAt ref) (trace o)
  /\ fetches (final o) = fetches w
  /\ connection (final o) = connection w.
Proof.
  intros o. destruct (last events) as [lastEvent |] eqn:Hlast.
  - pose proof (handle_folded options doc sid ref events lastEvent w Hlast) as Hrun.
    cbn zeta in Hrun. fold o in Hrun.
    destruct (evolveAll _ _ _) as [t | [fields |]]; rewrite Hrun.
    + cbn. split; [lia |]. by split; [constructor |].
    + unfold refSet. destruct (hd None (writes w)); cbn;
        (split; [lia |]; split; [by apply Forall_singleton | by split]).
    + unfold refRemove. destruct (hd None (writes w)); cbn;
        (split; [lia |]; split; [by apply Forall_singleton | by split]).
  - apply last_None in Hlast. unfold o. rewrite Hlast. cbn.
    split; [lia |]. by split; [constructor |].
Qed.

(** ** The dispatcher, continued *)

(** X14. When no registered projection handles any type of the batch, the
    dispatch succeeds without a single call: nothing is read, nothing is
    written, the world is as before. *)
Theorem dispatch_without_match_is_noop events allProjections sid w :
  (forall p eventType, p ∈ allProjections -> eventType ∈ canHandle p ->
                       eventType ∉ List.map (fun e => type (event e)) events) ->
  handleInlineProjections events allProjections sid w = mkOutcome (inr tt) w [].
Proof.
  intros Hnone. unfold handleInlineProjections.
  replace (List.filter _ allProjections) with (@nil RealtimeDBInlineProjectionDefinition);
    [reflexivity |].
  symmetry. induction allProjections as [| p ps IH]; [reflexivity |].
  cbn [List.filter].
  destruct (matchesEvents _ p) eqn:Hp.
  - apply matchesEvents_spec in Hp as (t & Hcan & Hin).
    exfalso. apply (Hnone p t); [by left | exact Hcan | exact Hin].
  - apply IH. intros q t Hq. apply Hnone. by right.
Qed.

Lemma dispatch_without_match_is_noop_witness :
  handleInlineProjections [Fixtures.itemRemoved "item-1" 0]
    [Fixtures.versionedProjection] "stream-1" emptyWorld =
  mkOutcome (inr tt) emptyWorld [].
Proof.
  apply dispatch_without_match_is_noop.
  intros p t Hp Ht. apply list_elem_of_singleton in Hp. subst p.
  apply list_elem_of_singleton in Ht. subst t.
  intros Hin. apply list_elem_of_singleton in Hin. discriminate Hin.
Defined.

(** X15. Dispatching to a list of projections is dispatching to its first
    part and then, if that succeeded, to the rest from the world the first
    part left; a failure in the first part is the failure of the whole and
    the rest is not handled. *)
Theorem dispatch_composes events ps1 ps2 sid w :
  let first := handleInlineProjections events ps1 sid w in
  handleInlineProjections events (ps1 ++ ps2) sid w =
  match result first with
  | inl t => mkOutcome (inl t) (final first) (trace first)
  | inr _ =>
      let rest := handleInlineProjections events ps2 sid (final first) in
      mkOutcome (result rest) (final rest) (trace first ++ trace rest)
  end.
Proof.
  unfold handleInlineProjections. rewrite List.filter_app.
  apply forEachProjection_app.
Qed.

Lemma handle_frame options doc sid ref events w other :
  diverges (normalizePath ref) (normalizePath other) = true ->
  dbGet (root (final (handle (realtimeDBInlineProjection options) events
                        (mkContext doc sid ref) w))) other = dbGet (root w) other.
Proof.
  intros Hdiv. destruct (last events) as [lastEvent |] eqn:Hlast.
  - pose proof (handle_folded options doc sid ref events lastEvent w Hlast) as Hrun.
    cbn zeta in Hrun.
    destruct (evolveAll _ _ _) as [t | [fields |]]; rewrite Hrun.
    + reflexivity.
    + unfold refSet. destruct (hd None (writes w)); cbn [final root]; [reflexivity |].
      by apply store_frame_set.
    + unfold refRemove. destruct (hd None (writes w)); cbn [final root]; [reflexivity |].
      by apply store_frame_remove.
  - apply last_None in Hlast. by rewrite Hlast.
Qed.

Lemma handleSingleProjection_frame options events sid w other :
  diverges (normalizePath (projectionPath (projectionNameOf options) sid))
           (normalizePath other) = true ->
  dbGet (root (final (handleSingleProjection (realtimeDBInlineProjection options)
                        events sid w))) other = dbGet (root w) other.
Proof.
  intros Hdiv.
  set (p := realtimeDBInlineProjection options).
  set (path := projectionPath (name p) sid).
  destruct (readAttempts_frame path READ_TIMEOUTS_MS 0%nat None w) as (Hroot & _).
  fold (readSnapshotWithRetry path) in Hroot.
  destruct (result (readSnapshotWithRetry path w)) as [t | snapshot] eqn:Hread.
  - rewrite (handleSingleProjection_read_failed events sid p w t Hread).
    cbn [final]. fold path. by rewrite Hroot.
  - rewrite (handleSingleProjection_read_ok events sid p w snapshot Hread).
    cbn [final]. fold path. unfold p. rewrite handle_frame by exact Hdiv.
    by rewrite Hroot.
Qed.

Lemma diverges_projection_paths n1 s1 n2 s2 :
  isSegment n1 = true -> isSegment s1 = true ->
  isSegment n2 = true -> isSegment s2 = true ->
  n1 <> n2 \/ s1 <> s2 ->
  diverges (normalizePath (projectionPath n1 s1))
           (normalizePath (projectionPath n2 s2)) = true.
Proof.
  intros Hn1 Hs1 Hn2 Hs2 Hdiff.
  rewrite !normalizePath_projectionPath.
  rewrite (normalizePath_segment n1), (normalizePath_segment s1),
    (normalizePath_segment n2), (normalizePath_segment s2) by assumption.
  cbn. destruct (String.eqb_spec n1 n2) as [-> | _]; [| reflexivity].
  destruct (String.eqb_spec s1 s2) as [-> | _]; [| reflexivity].
  by destruct Hdiff.
Qed.

(** X16. Handling one projection for one stream changes no other
    projection document: with names and stream ids that are single path
    segments and name no inherited member, the document of any other
    (projection, stream) pair reads the same before and after, whatever the
    outcome. *)
Theorem projection_documents_are_isolated options events sid w otherName otherSid :
  isSegment (projectionNameOf options) = true -> isSegment sid = true ->
  isSegment otherName = true -> isSegment otherSid = true ->
  ownKeysOnly (projectionPath (projectionNameOf options) sid) = true ->
  ownKeysOnly (projectionPath otherName otherSid) = true ->
  projectionNameOf options <> otherName \/ sid <> otherSid ->
  let o := handleSingleProjection (realtimeDBInlineProjection options) events sid w in
  dbGet (root (final o)) (projectionPath otherName otherSid) =
  dbGet (root w) (projectionPath otherName otherSid).
Proof.
  intros Hn Hs Hn' Hs' _ _ Hdiff o. apply handleSingleProjection_frame.
  by apply diverges_projection_paths.
Qed.

Lemma projection_documents_are_isolated_witness :
  let w := mkWorld (dbSet ∅ "projections/test-nullable/stream-1" (JNum 1)) [] [] [] in
  let o := handleSingleProjection Fixtures.counterProjection
             [Fixtures.itemAdded "item-1" 1 0] "stream-1" w in
  dbGet (root (final o)) (projectionPath "test-nullable" "stream-1") = JNum 1.
Proof.
  intros w o.
  transitivity (dbGet (root w) (projectionPath "test-nullable" "stream-1"));
    [| reflexivity].
  apply (projection_documents_are_isolated Fixtures.counterOptions
           [Fixtures.itemAdded "item-1" 1 0] "stream-1" w "test-nullable" "stream-1");
    [reflexivity | reflexivity | reflexivity | reflexivity | reflexivity
    | reflexivity |].
  left. discriminate.
Defined.

Lemma forEachProjection_frame events sid other optionsList : forall w,
  Forall (fun options =>
            diverges (normalizePath (projectionPath (projectionNameOf options) sid))
                     (normalizePath other) = true) optionsList ->
  dbGet (root (final (forEachProjection (List.map realtimeDBInlineProjection optionsList)
                        events sid w))) other = dbGet (root w) other.
Proof.
  induction optionsList as [| options rest IH]; intros w Hall; [reflexivity |].
  apply Forall_cons in Hall as [Hhere Hrest]. cbn [List.map forEachProjection].
  pose proof (handleSingleProjection_frame options events sid w other Hhere) as Hframe.
  destruct (result (handleSingleProjection (realtimeDBInlineProjection options)
                      events sid w)) as [t | []] eqn:Hp.
  - by rewrite (bind_inl _ _ _ t Hp).
  - rewrite (bind_inr _ _ _ tt Hp). cbn [final]. by rewrite IH.
Qed.

(** X17. A dispatch for one stream touches no document of another stream:
    with projection names and stream ids that are single path segments and
    name no inherited member, every projection document of every other
    stream reads the same before and after the dispatch, whether it
    succeeds or fails. *)
Theorem dispatch_leaves_other_streams optionsList events sid w otherName otherSid :
  Forall (fun options => isSegment (projectionNameOf options) = true) optionsList ->
  isSegment sid = true -> isSegment otherName = true -> isSegment otherSid = true ->
  Forall (fun options =>
            ownKeysOnly (projectionPath (projectionNameOf options) sid) = true)
    optionsList ->
  ownKeysOnly (projectionPath otherName otherSid) = true ->
  sid <> otherSid ->
  let o := handleInlineProjections events
             (List.map realtimeDBInlineProjection optionsList) sid w in
  dbGet (root (final o)) (projectionPath otherName otherSid) =
  dbGet (root w) (projectionPath otherName otherSid).
Proof.
  intros Hnames Hs Hn' Hs' _ _ Hdiff o. unfold o, handleInlineProjections.
  rewrite filter_map_factory. apply forEachProjection_frame.
  apply Forall_forall. intros options Hin.
  apply list_elem_of_In, filter_In in Hin as [Hin _].
  rewrite Forall_forall in Hnames.
  apply diverges_projection_paths; try assumption.
  - apply Hnames. by apply list_elem_of_In.
  - by right.
Qed.

Lemma dispatch_leaves_other_streams_witness :
  let w := mkWorld (dbSet ∅ "projections/test-counter/stream-2" (JNum 1)) [] [] [] in
  let o := handleInlineProjections [Fixtures.itemAdded "item-1" 1 0]
             [Fixtures.counterProjection; Fixtures.nullableProjection] "stream-1" w in
  dbGet (root (final o)) (projectionPath "test-counter" "stream-2") = JNum 1.
Proof.
  intros w o.
  transitivity (dbGet (root w) (projectionPath "test-counter" "stream-2"));
    [| reflexivity].
  apply (dispatch_leaves_other_streams
           [Fixtures.counterOptions; Fixtures.nullableOptions]
           [Fixtures.itemAdded "item-1" 1 0] "stream-1" w "test-counter" "stream-2");
    [by repeat constructor | reflexivity | reflexivity | reflexivity
    | by repeat constructor | reflexivity | discriminate].
Defined.

(** ** The append interceptor, continued *)

(** X18. When the wrapped append fails, the interceptor fails with the
    same error and has done nothing more than the append did: no
    projection is read or written. *)
Theorem append_failure_skips_projections
    (originalAppend : M AppendResult) projections sn (events : list Event) w t :
  result (originalAppend w) = inl t ->
  appendToStream originalAppend projections sn events w =
  mkOutcome (inl t) (final (originalAppend w)) (trace (originalAppend w)).
Proof. intros Hfailed. unfold appendToStream. by rewrite (bind_inl _ _ _ t). Qed.

Lemma append_failure_skips_projections_witness :
  appendToStream (throw (ErrorObj "Error" "Append failed"))
    [Fixtures.counterProjection] "cart-1" [mkEvent "ItemAdded" JNull] emptyWorld =
  mkOutcome (inl (ErrorObj "Error" "Append failed")) emptyWorld [].
Proof.
  apply (append_failure_skips_projections (throw (ErrorObj "Error" "Append failed"))).
  reflexivity.
Defined.

(** X19. When the append result carries no usable version, the
    interceptor fails after the append has been made and before any
    projection is touched; with both version fields absent or [null] the
    error is the [TypeError] of [BigInt(undefined)] or [BigInt(null)]. *)
Theorem unusable_version_skips_projections
    (originalAppend : M AppendResult) projections sn (events : list Event) w appended t :
  result (originalAppend w) = inr appended ->
  nextVersionOf appended = inl t ->
  appendToStream originalAppend projections sn events w =
    mkOutcome (inl t) (final (originalAppend w)) (trace (originalAppend w))
  /\ (versionValueOf appended = None ->
      t = ErrorObj "TypeError" "Cannot convert undefined to a BigInt")
  /\ (versionValueOf appended = Some JNull ->
      t = ErrorObj "TypeError" "Cannot convert null to a BigInt").
Proof.
  intros Happended Hversion. split; [| split].
  - unfold appendToStream. rewrite (bind_inr _ _ _ appended Happended).
    rewrite Hversion. cbn. by rewrite app_nil_r.
  - intros Hnone. unfold nextVersionOf in Hversion. rewrite Hnone in Hversion.
    cbn in Hversion. congruence.
  - intros Hnull. unfold nextVersionOf in Hversion. rewrite Hnull in Hversion.
    cbn in Hversion. congruence.
Qed.

Lemma unusable_version_skips_projections_witness :
  appendToStream (ret (mkAppendResult (Some JNull) None))
    [Fixtures.counterProjection] "cart-1" [mkEvent "ItemAdded" JNull] emptyWorld =
  mkOutcome (inl (ErrorObj "TypeError" "Cannot convert undefined to a BigInt"))
    emptyWorld [].
Proof.
  destruct (unusable_version_skips_projections
              (ret (mkAppendResult (Some JNull) None))
              [Fixtures.counterProjection] "cart-1" [mkEvent "ItemAdded" JNull]
              emptyWorld (mkAppendResult (Some JNull) None)
              (ErrorObj "TypeError" "Cannot convert undefined to a BigInt"))
    as (Hrun & _); [reflexivity | reflexivity |].
  exact Hrun.
Defined.

Lemma readEventsOf_lookup sn V (events : list Event) i e :
  events !! i = Some e ->
  readEventsOf sn V events !! i =
  Some (toReadEvent sn V (Z.of_nat (length events)) i e).
Proof. intros He. unfold readEventsOf. by rewrite list_lookup_imap, He. Qed.


Lemma readEventsOf_length sn V (events : list Event) :
  length (readEventsOf sn V events) = length events.
Proof. apply length_imap. Qed.

Lemma readEventsOf_last sn V (events : list Event) e :
  last events = Some e ->
  last (readEventsOf sn V events) =
  Some {| event := e;
          metadata := {| streamName := sn;
                         streamPosition := V;
                         messageId := sn +:+ "-" +:+ bigintToString V |} |}.
Proof.
  rewrite !last_lookup, readEventsOf_length. intros He.
  rewrite (readEventsOf_lookup _ _ _ _ _ He). unfold toReadEvent.
  assert (Hlen : (0 < length events)%nat).
  { destruct events; [discriminate | cbn; lia]. }
  replace (V - Z.of_nat (length events) + 1 + Z.of_nat (Nat.pred (length events)))
    with V by lia.
  reflexivity.
Qed.

Lemma readEventsOf_events sn V (events : list Event) :
  List.map event (readEventsOf sn V events) = events.
Proof.
  unfold readEventsOf. generalize (Z.of_nat (length events)). intros N.
  assert (Hevent : forall i e, event (toReadEvent sn V N i e) = e) by reflexivity.
  revert Hevent. generalize (toReadEvent sn V N).
  induction events as [| e events IH]; intros f Hevent; [reflexivity |].
  cbn. rewrite Hevent. f_equal. apply IH. intros i e'. apply Hevent.
Qed.







(** X22. End to end: after a wrapped append of a non-empty batch that
    results in version [V], a projection that handles the batch and whose
    document is read at the first attempt is persisted with
    [_metadata.streamPosition] equal to [V] as a decimal string and
    [_metadata.streamId] equal to the stream name, and the caller gets the
    append result. *)
Theorem append_persists_stream_version
    (originalAppend : M AppendResult) options sn (events : list Event) lastEvent
    w appended V fields :
  last events = Some lastEvent ->
  result (originalAppend w) = inr appended ->
  nextVersionOf appended = inr V ->
  let definition := realtimeDBInlineProjection options in
  let path := projectionPath (name definition) sn in
  let w1 := final (originalAppend w) in
  matchesEvents (List.map type events) definition = true ->
  attemptFailure (hd promptFetch (fetches w1)) 5000 = None ->
  hd None (writes w1) = None ->
  evolveAll (Options.evolve options) (readEventsOf sn V events)
    (workingState options (dbGet (root w1) path)) = inr (Some fields) ->
  let o := appendToStream originalAppend [definition] sn events w in
  result o = inr appended
  /\ dbGet (root (final o)) path =
     JObj (<["_metadata" :=
             JObj (<["streamId" := JStr sn]>
                  (<["name" := JStr (name definition)]>
                  (<["schemaVersion" := JNum (default 1 (Options.schemaVersion options))]>
                  (<["streamPosition" := JStr (bigintToString V)]> ∅))))]> fields).
Proof.
  intros Hlast Happended Hversion definition path w1 Hmatch Hread Hwrite Hfold o.
  set (readEvents := readEventsOf sn V events) in *.
  assert (Htypes : List.map (fun e => type (event e)) readEvents = List.map type events).
  { rewrite <- List.map_map. unfold readEvents.
    by rewrite readEventsOf_events. }
  set (w2 := mkWorld (root w1) (tl (fetches w1)) (writes w1) (connection w1)).
  assert (Hsnapshot : readSnapshotWithRetry path w1 =
                      mkOutcome (inr (mkSnapshot (dbGet (root w1) path))) w2 [OpOnce path]).
  { unfold readSnapshotWithRetry, READ_TIMEOUTS_MS. rewrite readAttempts_cons.
    by rewrite Hread. }
  pose proof (readEventsOf_last sn V events lastEvent Hlast) as Hlast'.
  fold readEvents in Hlast'.
  pose proof (handle_folded options (dbGet (root w1) path) sn path readEvents _ w2 Hlast')
    as Hrun.
  cbn zeta in Hrun. rewrite Hfold in Hrun. cbn [metadata streamPosition] in Hrun.
  set (persisted := <["_metadata" := _]> fields) in Hrun.
  destruct (refSet_accepted path persisted w2 Hwrite) as (Hok & _ & _ & Hget).
  rewrite <- Hrun in Hok, Hget.
  specialize (Hget (insert_non_empty _ _ _)).
  set (h := handle _ readEvents _ w2) in *.
  assert (Hdispatch : handleInlineProjections readEvents [definition] sn w1 =
                      mkOutcome (inr tt) (final h) ([OpOnce path] ++ trace h ++ [])).
  { unfold handleInlineProjections. rewrite Htypes. cbn [List.filter].
    rewrite Hmatch. cbn [forEachProjection].
    assert (Hsingle : handleSingleProjection definition readEvents sn w1 =
                      mkOutcome (inr tt) (final h) ([OpOnce path] ++ trace h)).
    { unfold handleSingleProjection. fold path.
      rewrite (bind_inr _ _ _ (mkSnapshot (dbGet (root w1) path)))
        by (by rewrite Hsnapshot).
      rewrite Hsnapshot. cbn [result final trace val].
      change (handle definition readEvents
                (mkContext (dbGet (root w1) path) sn path) w2) with h.
      by rewrite Hok. }
    rewrite (bind_inr _ _ _ tt) by (by rewrite Hsingle).
    by rewrite Hsingle. }
  unfold o, appendToStream, bind. rewrite Happended, Hversion.
  cbn [liftResult ret result final trace]. fold w1. fold readEvents.
  rewrite Hdispatch. cbn [result final trace ret].
  split; [reflexivity | exact Hget].
Qed.

Lemma append_persists_stream_version_witness :
  let appended := mkAppendResult (Some (JBigInt 5)) None in
  let o := appendToStream (ret appended) [Fixtures.counterProjection] "cart-1"
             [mkEvent "ItemAdded" JNull; mkEvent "ItemAdded" JNull] emptyWorld in
  result o = inr appended
  /\ exists stored,
       dbGet (root (final o)) "projections/test-counter/cart-1" = JObj stored
       /\ stored !! "count" = Some (JNum 2).
Proof.
  intros appended o.
  destruct (append_persists_stream_version (ret appended) Fixtures.counterOptions
              "cart-1" [mkEvent "ItemAdded" JNull; mkEvent "ItemAdded" JNull]
              (mkEvent "ItemAdded" JNull) emptyWorld appended 5
              (<["count" := JNum 2]> ∅))
    as (Hresult & Hstored);
    [reflexivity | reflexivity | reflexivity | reflexivity | reflexivity
    | reflexivity | reflexivity |].
  split; [exact Hresult |].
  eexists. split; [exact Hstored | reflexivity].
Defined.

(** ** The test helpers, continued *)

Lemma projectionPath_below projectionName sid :
  projectionPath projectionName sid = "projections" +:+ "/" +:+ (projectionName +:+ "/" +:+ sid).
Proof. reflexivity. Qed.

(** X23. After [clearProjection] or [clearAllProjections] has been
    accepted by the store, [getProjectionState] returns [null]: for the
    cleared projection and stream in the first case, when their path is one
    of own keys, and for every projection and every stream in the second. *)
Theorem cleared_projections_read_null projectionName sid w :
  hd None (writes w) = None ->
  rejection (hd promptFetch (fetches w)) = None ->
  (ownKeysOnly (projectionPath projectionName sid) = true ->
   result (getProjectionState projectionName sid
             (final (clearProjection projectionName sid w))) = inr JNull)
  /\ result (getProjectionState projectionName sid
               (final (clearAllProjections w))) = inr JNull.
Proof.
  intros Haccepted Hresolved. split.
  - intros _. apply getProjectionState_null.
    + unfold clearProjection, refRemove. by rewrite Haccepted.
    + unfold clearProjection, refRemove. rewrite Haccepted. cbn [final root].
      by rewrite dbGet_dbRemove.
  - apply getProjectionState_null.
    + unfold clearAllProjections, refRemove. by rewrite Haccepted.
    + unfold clearAllProjections, refRemove. rewrite Haccepted. cbn [final root].
      rewrite projectionPath_below. by rewrite dbGet_removed_below.
Qed.

Lemma cleared_projections_read_null_witness :
  let w := mkWorld (dbSet ∅ "projections/test-counter/stream-1"
                      (JObj (<["count" := JNum 1]> ∅))) [] [] [] in
  result (getProjectionState "test-counter" "stream-1" w)
  = inr (JObj (<["count" := JNum 1]> ∅))
  /\ result (getProjectionState "test-counter" "stream-1"
               (final (clearProjection "test-counter" "stream-1" w))) = inr JNull
  /\ result (getProjectionState "test-counter" "stream-1" (final (clearAllProjections w)))
     = inr JNull.
Proof.
  intros w.
  destruct (cleared_projections_read_null "test-counter" "stream-1" w) as [Hone Hall];
    [reflexivity | reflexivity |].
  split; [reflexivity |]. split; [| exact Hall].
  apply Hone. reflexivity.
Defined.

(** X24. [testProjection] does what the dispatcher does for one
    projection whenever the first read resolves within the first timeout:
    same result, same world afterwards, same calls. *)
Theorem testProjection_agrees_with_dispatcher projection events sid w :
  attemptFailure (hd promptFetch (fetches w)) 5000 = None ->
  testProjection projection events sid w =
  handleSingleProjection projection events sid w.
Proof.
  intros Hprompt.
  assert (Hread : readSnapshotWithRetry (projectionPath (name projection) sid) w =
                  mkOutcome
                    (inr (mkSnapshot (dbGet (root w) (projectionPath (name projection) sid))))
                    (mkWorld (root w) (tl (fetches w)) (writes w) (connection w))
                    [OpOnce (projectionPath (name projection) sid)]).
  { unfold readSnapshotWithRetry, READ_TIMEOUTS_MS. rewrite readAttempts_cons.
    by rewrite Hprompt. }
  rewrite (handleSingleProjection_read_ok events sid projection w
             (mkSnapshot (dbGet (root w) (projectionPath (name projection) sid))))
    by (by rewrite Hread).
  rewrite Hread. cbn [result final trace val].
  unfold attemptFailure in Hprompt.
  destruct (latency (hd promptFetch (fetches w)) <=? 5000); [| discriminate].
  unfold testProjection.
  unfold bind at 1. unfold once at 1 2 3.
  cbn [result final trace]. rewrite Hprompt.
  unfold bind, await. cbn [result final trace settlement val app]. reflexivity.
Qed.

Lemma testProjection_agrees_with_dispatcher_witness :
  testProjection Fixtures.counterProjection [Fixtures.itemAdded "item-1" 1 0]
    "stream-1" emptyWorld =
  handleSingleProjection Fixtures.counterProjection [Fixtures.itemAdded "item-1" 1 0]
    "stream-1" emptyWorld.
Proof.
  apply testProjection_agrees_with_dispatcher. reflexivity.
Defined.

(** Writing below a stored record reaches that record. *)
Lemma getIn_setIn_below segments more value : forall node fields,
  more <> [] ->
  getIn segments (JObj node) = JObj fields ->
  getIn segments (JObj (setIn (segments ++ more) value node)) =
  JObj (setIn more value fields).
Proof.
  induction segments as [| segment rest IH]; intros node fields Hmore.
  - cbn [getIn app]. by intros [= ->].
  - cbn [getIn]. destruct (node !! segment) as [child |] eqn:Hchild; [| discriminate].
    intros Hbelow.
    assert (Hrecord : exists below, child = JObj below).
    { destruct rest; cbn [getIn] in Hbelow; [by eexists |].
      destruct child; try discriminate Hbelow. by eexists. }
    destruct Hrecord as (below & ->).
    change ((segment :: rest) ++ more) with (segment :: (rest ++ more)).
    pose proof (IH below fields Hmore Hbelow) as Hrec.
    destruct (rest ++ more) as [| next tail] eqn:Htail.
    { apply app_eq_nil in Htail as [_ ->]. done. }
    by rewrite setIn_cons, Hchild, lookup_insert_eq.
Qed.

(** X25. [getProjectionState] converts only a string position: a stored
    document without [_metadata], or whose [_metadata.streamPosition] is
    not a string, is returned as stored and the tree is left alone; a
    string that is an integer literal, white space around it included, is
    replaced by its bigint, in the stored document too, since the helper
    assigns to the object the store handed out; a string that is no such
    literal makes the helper throw a [SyntaxError]. *)
Theorem getProjectionState_conversion projectionName sid w (fields : Obj) :
  rejection (hd promptFetch (fetches w)) = None ->
  dbGet (root w) (projectionPath projectionName sid) = JObj fields ->
  let o := getProjectionState projectionName sid w in
  (fields !! "_metadata" = None ->
   result o = inr (JObj fields) /\ root (final o) = root w)
  /\ (forall meta, fields !! "_metadata" = Some (JObj meta) ->
        match meta !! "streamPosition" with
        | Some (JStr position) =>
            match stringToBigInt position with
            | Some n =>
                let converted :=
                  JObj (<["_metadata" :=
                          JObj (<["streamPosition" := JBigInt n]> meta)]> fields) in
                result o = inr converted
                /\ dbGet (root (final o)) (projectionPath projectionName sid) = converted
            | None =>
                result o = inl (ErrorObj "SyntaxError"
                                  ("Cannot convert " +:+ position +:+ " to a BigInt"))
                /\ root (final o) = root w
            end
        | _ => result o = inr (JObj fields) /\ root (final o) = root w
        end).
Proof.
  intros Hresolved Hstored o. unfold o.
  rewrite getProjectionState_run by exact Hresolved. rewrite Hstored.
  cbn [truthy negb stringPositionOf withStreamPosition]. split.
  - by intros ->.
  - intros meta Hmeta. rewrite Hmeta.
    destruct (meta !! "streamPosition") as [[| | | | position |] |]; try done.
    destruct (stringToBigInt position) as [n |]; [| done].
    cbn [result final root]. split; [reflexivity |].
    unfold dbGet in Hstored |- *. rewrite normalizePath_projectionPath in Hstored |- *.
    rewrite (getIn_setIn_below _ _ _ _ fields) by done.
    cbn [setIn]. by rewrite Hmeta.
Qed.

Lemma getProjectionState_conversion_witness :
  let position := utf8 [194; 160]%nat +:+ "42" in
  let stored := <["_metadata" := JObj (<["streamPosition" := JStr position]> ∅)]> ∅ in
  let converted := JObj (<["_metadata" := JObj (<["streamPosition" := JBigInt 42]> ∅)]> ∅) in
  let w := mkWorld (dbSet ∅ "projections/p/s" (JObj stored)) [] [] [] in
  result (getProjectionState "p" "s" w) = inr converted
  /\ dbGet (root (final (getProjectionState "p" "s" w))) "projections/p/s" = converted.
Proof.
  intros position stored converted w.
  destruct (getProjectionState_conversion "p" "s" w stored) as [_ Hmeta];
    [reflexivity | reflexivity |].
  exact (Hmeta (<["streamPosition" := JStr position]> ∅) eq_refl).
Defined.
